(** * Identifying potential customers from IPEDS data

    A shallow embedding of the notebook [identify_potential_customers.ipynb]:
    the need-score ranking (Approach 1), the market-penetration table
    (Approach 2) and the nearest-member matching (Approach 3).

    Conventions of the embedding.
    - The cells of Approach 3 are embedded twice.  In the modules [Np] and
      [Approach3] a [float64] cell is a real number ([R]): rounding, [NaN]
      and infinities are outside that model, and so is what numpy answers to
      a division by zero; what is proved there holds in exact arithmetic.
      In the modules [Np64] and [Approach3F64] a cell is an IEEE binary64
      number, with rounding, [NaN] and infinities: what the cells raise, and
      what they attach when they do not, is proved there.
    - The need scores of Approach 1 are real numbers.  Counts are [Z] and
      the penetration ratio is a rational ([Q]).
    - A Python exception is a value [Err e] of the [result] type.
    - A data frame is the list of its rows in positional order, each row
      paired with its index label; a numpy 2-d array is the list of its rows.
    - numpy raises on a shape mismatch; the matrix operations below combine
      rows position-wise and the theorems state the shapes the notebook has. *)

From Stdlib Require Import String Ascii.
From Stdlib Require Import Reals Lra Lia List Arith ZArith QArith Bool.
From Stdlib Require Import Permutation Sorted.
From Stdlib Require Floats.
Import ListNotations.

Close Scope Q_scope.
Close Scope R_scope.
Close Scope Z_scope.

Set Implicit Arguments.
Set Warnings "-notation-for-abbreviation,-inexact-float".

(** ** Exceptions *)

Inductive error : Type :=
| ValueError            (* numpy: reduction of an empty array, length mismatch *)
| IndexError            (* positional access out of bounds *)
| KeyError              (* pandas: column label not found *)
| DegenerateInputError. (* a feature without variance *)

Inductive result (A : Type) : Type :=
| Ok (a : A)
| Err (e : error).

Arguments Ok {A} a.
Arguments Err {A} e.

Definition bind {A B : Type} (c : result A) (k : A -> result B) : result B :=
  match c with
  | Ok a => k a
  | Err e => Err e
  end.

Notation "x <- c ;; k" := (bind c (fun x => k))
  (at level 61, c at next level, right associativity).

Fixpoint mapM {A B : Type} (f : A -> result B) (l : list A) : result (list B) :=
  match l with
  | [] => Ok []
  | a :: l' => b <- f a ;; bs <- mapM f l' ;; Ok (b :: bs)
  end.

(** ** Position-wise combination of two lists *)

Definition zipWith {A B C : Type} (f : A -> B -> C) (a : list A) (b : list B)
  : list C :=
  map (fun ab => f (fst ab) (snd ab)) (combine a b).

(** ** Data frames and series

    A frame is the list of its rows, each with its index label.  A series is
    a frame whose rows are single values. *)

Definition frame (A : Type) : Type := list (nat * A).

(** [df.reset_index(drop=True)]: labels become the positions. *)
Definition reset_index {A : Type} (df : frame A) : frame A :=
  combine (seq 0 (length df)) (map snd df).

(** [df.head(n)]. *)
Definition head {A : Type} (n : nat) (df : frame A) : frame A := firstn n df.

(** Label lookup in a series (the first row carrying the label). *)
Fixpoint loc {A : Type} (s : frame A) (label : nat) : option A :=
  match s with
  | [] => None
  | (l, a) :: s' => if Nat.eqb l label then Some a else loc s' label
  end.

(** [df.iloc[idx]] for a list of positions: out of bounds raises. *)
Definition iloc {A : Type} (df : frame A) (idx : list nat) : result (frame A) :=
  mapM (fun i => match nth_error df i with
                 | Some r => Ok r
                 | None => Err IndexError
                 end) idx.

(** [df[col] = values] for a Python list: the lengths must agree. *)
Definition assign_list {A B C : Type} (set : A -> B -> C)
    (df : frame A) (values : list B) : result (frame C) :=
  if Nat.eqb (length values) (length df)
  then Ok (zipWith (fun r v => (fst r, set (snd r) v)) df values)
  else Err ValueError.

(** [df[col] = s] for a series: values are aligned on the index label, a
    label absent from [s] leaves a missing value. *)
Definition assign_series {A B C : Type} (set : A -> option B -> C)
    (df : frame A) (s : frame B) : frame C :=
  map (fun r => (fst r, set (snd r) (loc s (fst r)))) df.

(** ** numpy on real vectors and matrices *)

Module Np.
Local Open Scope R_scope.

Notation vector := (list R).
Notation matrix := (list (list R)).

Definition sum (v : vector) : R := fold_right Rplus 0 v.

(** [numpy.linalg.norm] of a vector: the 2-norm. *)
Definition norm (v : vector) : R := sqrt (sum (map (fun x => x * x) v)).

(** Inner product of two rows. *)
Definition dot (a b : vector) : R := sum (zipWith Rmult a b).

(** [A.dot(np.transpose(B))]: entry (i,j) is the inner product of row i of
    [A] with row j of [B]. *)
Definition dot_T (A B : matrix) : matrix :=
  map (fun a => map (fun b => dot a b) B) A.

(** [np.ones((n,1))]. *)
Definition ones (n : nat) : matrix := repeat [1] n.

(** [norm(X,axis=1).reshape((n,1))**2]. *)
Definition sq_norms (X : matrix) : matrix := map (fun x => [norm x ^ 2]) X.

Definition madd (A B : matrix) : matrix := zipWith (zipWith Rplus) A B.
Definition msub (A B : matrix) : matrix := zipWith (zipWith Rminus) A B.
Definition mscale (c : R) (A : matrix) : matrix := map (map (Rmult c)) A.

(** [M[i,j]]. *)
Definition entry (M : matrix) (i j : nat) : option R :=
  match nth_error M i with
  | Some r => nth_error r j
  | None => None
  end.

(** [M[:,j]]: an index out of a row's bounds raises. *)
Definition column (M : matrix) (j : nat) : result vector :=
  mapM (fun r => match nth_error r j with
                 | Some x => Ok x
                 | None => Err IndexError
                 end) M.

(** [np.min]: raises on an empty array. *)
Definition np_min (v : vector) : result R :=
  match v with
  | [] => Err ValueError
  | x :: v' => Ok (fold_left Rmin v' x)
  end.

(** [np.argwhere(v == c)]: the positions holding [c], ascending. *)
Fixpoint argwhere_from (k : nat) (v : vector) (c : R) : list nat :=
  match v with
  | [] => []
  | x :: v' =>
      if Req_dec_T x c then k :: argwhere_from (S k) v' c
      else argwhere_from (S k) v' c
  end.

Definition argwhere (v : vector) (c : R) : list nat := argwhere_from 0 v c.

(** [norm(A, axis=0)] of an array with [p] columns: one 2-norm per column,
    taken down the rows. *)
Definition norm_axis0 (p : nat) (A : matrix) : vector :=
  map (fun k => norm (map (fun r => nth k r 0) A)) (seq 0 p).

Definition Rleb (x y : R) : bool := if Rle_dec x y then true else false.

End Np.

(** ** Sorting

    Rows are ordered by insertion, so rows that compare equal keep their
    relative order.  pandas may order such rows differently; the facts
    proved of a sorted frame below use only that it is an ordered
    permutation of the frame. *)

Section SortBy.
Variable A : Type.
Variable leb : A -> A -> bool.

Fixpoint insert_by (a : A) (l : list A) : list A :=
  match l with
  | [] => [a]
  | b :: l' => if leb a b then a :: b :: l' else b :: insert_by a l'
  end.

Definition sort_by (l : list A) : list A := fold_right insert_by [] l.

End SortBy.

(** [sort_values] on one real column. *)

Section SortValues.
Variable A : Type.
Variable key : A -> R.
Variable ascending : bool.

Definition precedes (a b : A) : bool :=
  if ascending then Np.Rleb (key a) (key b) else Np.Rleb (key b) (key a).

Definition sort_values (l : list A) : list A := sort_by precedes l.

(** The order a sorted frame is in. *)
Definition in_order (a b : A) : Prop :=
  if ascending then (key a <= key b)%R else (key b <= key a)%R.

(** The rows [head n] leaves out of the sorted frame. *)
Definition beyond_head (n : nat) (l : list A) : list A :=
  skipn n (sort_values l).

End SortValues.

(** ** Approach 3: the distance matrix *)

Module Approach3.
Import Np.
Local Open Scope R_scope.

(** A row of [members_df] / [non_members_df]: the first column and the
    feature columns [iloc[:,1:]]. *)
Record row : Type := mkRow { UnitID : Z; features : vector }.

(** [np.array(df.iloc[:,1:])]. *)
Definition feature_array (df : frame row) : matrix :=
  map (fun r => features (snd r)) df.

(** [df.iloc[:,1:] /= nrm]: every row's features are divided position-wise
    by [nrm]; the first column and the labels stay.  A division by 0 is a
    real number here; on [float64] it is [NaN] or an infinity, see
    [Approach3F64.div_features]. *)
Definition div_features (nrm : vector) (df : frame row) : frame row :=
  map (fun r => (fst r, mkRow (UnitID (snd r))
                              (zipWith Rdiv (features (snd r)) nrm))) df.

(** The cell "scale each feature", on frames with [p] feature columns. *)
Definition scale (p : nat) (members_df non_members_df : frame row)
  : frame row * frame row :=
  let members_norm := norm_axis0 p (feature_array members_df) in
  let members_df := div_features members_norm members_df in
  let non_members_df := div_features members_norm non_members_df in
  (members_df, non_members_df).

(** The cell "calculate euclidean distance", in exact arithmetic. *)
Definition euclidean (X Y : matrix) : matrix :=
  let n := length X in
  let m := length Y in
  let onesn := ones n in
  let onesm := ones m in
  let normX := sq_norms X in
  let normY := sq_norms Y in
  madd (msub (dot_T normX onesm) (mscale 2 (dot_T X Y))) (dot_T onesn normY).

(** The spec's cross-check: direct summation of squared differences. *)
Definition sq_diff_sum (x y : vector) : R :=
  sum (zipWith (fun a b => (a - b) * (a - b)) x y).

Definition brute_force (X Y : matrix) : matrix :=
  map (fun x => map (fun y => sq_diff_sum x y) Y) X.

(** The body of the loop of the cell "find the most similar member".  The
    minimum of a column of real numbers is one of its entries, so [i[0][0]]
    does not raise in this model; it does on a [float64] column with a
    [NaN], see [Approach3F64.match_column]. *)
Definition match_column (M : matrix) (j : nat) : result (nat * R) :=
  vec <- column M j ;;
  lo <- np_min vec ;;
  match argwhere vec lo with
  | i :: _ => lo' <- np_min vec ;; Ok (i, lo')
  | [] => Err IndexError
  end.

(** The loop: [match_index] and [matched_euclidean] after [m] rounds. *)
Definition matching (M : matrix) (m : nat) : result (list nat * list R) :=
  found <- mapM (match_column M) (seq 0 m) ;;
  Ok (map fst found, map snd found).

(** A row of [non_members_df] once the two result columns are attached. *)
Record matched_row : Type := mkMatched {
  base : row;
  distance_with_closest_members : R;
  unitid_of_most_similar_member : option Z
}.

(** The two cells that attach the result columns. *)
Definition attach (members_df non_members_df : frame row)
    (match_index : list nat) (matched_euclidean : list R)
  : result (frame matched_row) :=
  with_distance <- assign_list (fun r d => (r, d))
                     non_members_df matched_euclidean ;;
  picked <- iloc members_df match_index ;;
  let unitid_most_similar_members :=
    reset_index (map (fun r => (fst r, UnitID (snd r))) picked) in
  Ok (assign_series (fun rd u => mkMatched (fst rd) (snd rd) u)
        with_distance unitid_most_similar_members).

(** The cell "select top n universities with highest similarities". *)
Definition potential_members (n : nat) (non_members_df : frame matched_row)
  : frame matched_row :=
  head n (sort_values (fun r => distance_with_closest_members (snd r))
                      true non_members_df).

(** Approach 3 from the two frames left by [dropna], each with [p] feature
    columns, to the list of potential members. *)
Definition approach3 (p top : nat) (members_df non_members_df : frame row)
  : result (frame matched_row) :=
  let members_df := reset_index members_df in
  let non_members_df := reset_index non_members_df in
  let m := length non_members_df in
  let '(members_df, non_members_df) := scale p members_df non_members_df in
  let X := feature_array members_df in
  let Y := feature_array non_members_df in
  let M := euclidean X Y in
  found <- matching M m ;;
  attached <- attach members_df non_members_df (fst found) (snd found) ;;
  Ok (potential_members top attached).

(** The 2-norm of feature column [k] taken over the rows of a frame. *)
Definition column_norm (df : frame row) (k : nat) : R :=
  sqrt (sum (map (fun r => let x := nth k (features (snd r)) 0 in x * x) df)).

(** What one round of the loop records for column [j]. *)
Definition first_argmin (M : matrix) (j i : nat) (d : R) : Prop :=
  entry M i j = Some d /\
  forall i' d', entry M i' j = Some d' ->
                d <= d' /\ (d' = d -> (i <= i')%nat).

(** *** The specification's end-to-end scenario

    Customers A = (1,0) and B = (0,1); non-customers C = (0.9,0.1) and
    D = (0.1,0.9). *)

Definition scenario_X : matrix := [[1; 0]; [0; 1]].
Definition scenario_Y : matrix := [[9 / 10; 1 / 10]; [1 / 10; 9 / 10]].

Definition scenario_members : frame row :=
  [(7%nat, mkRow 1001 [1; 0]); (9%nat, mkRow 1002 [0; 1])].
Definition scenario_non_members : frame row :=
  [(2%nat, mkRow 2001 [9 / 10; 1 / 10]); (5%nat, mkRow 2002 [1 / 10; 9 / 10])].

End Approach3.

(** ** Approach 1: need based identification *)

Module Approach1.
Import Np.
Local Open Scope string_scope.

(** A cell of [subset_df]: a number or a text. *)
Inductive cell : Type :=
| Num (x : R)
| Text (s : string).

(** A frame with named columns; every row has one cell per column. *)
Record dataframe : Type := mkDF {
  columns : list string;
  rows : frame (list cell)
}.

(** Position of a column label; a label that is not a column raises.  The
    labels of a frame are taken to be distinct: for a repeated label this is
    its first position, where pandas selects every column carrying it. *)
Fixpoint get_loc (c : string) (cols : list string) : result nat :=
  match cols with
  | [] => Err KeyError
  | c' :: cols' =>
      if String.eqb c c' then Ok 0 else k <- get_loc c cols' ;; Ok (S k)
  end.

(** [df[cols]] for a list of labels. *)
Definition getitem_list (df : dataframe) (cols : list string)
  : result dataframe :=
  locs <- mapM (fun c => get_loc c (columns df)) cols ;;
  Ok (mkDF cols
        (map (fun r => (fst r, map (fun k => nth k (snd r) (Num 0)) locs))
             (rows df))).

(** The number in a cell of a numeric column; the columns sorted below are
    taken to be numeric (pandas raises [TypeError] when it has to order a
    text against a number). *)
Definition as_float (c : cell) : R :=
  match c with
  | Num x => x
  | Text _ => 0%R
  end.

(** [df.sort_values(by, ascending=...)] on a numeric column. *)
Definition sort_values_by (by_ : string) (ascending : bool) (df : dataframe)
  : result dataframe :=
  k <- get_loc by_ (columns df) ;;
  Ok (mkDF (columns df)
        (sort_values (fun r => as_float (nth k (snd r) (Num 0)))
                     ascending (rows df))).

Definition head_rows (n : nat) (df : dataframe) : dataframe :=
  mkDF (columns df) (head n (rows df)).

(** The column lists and dictionaries of the notebook. *)
Definition var_list : list string :=
  [ "UnitID"; "Institution Name";
    "City location of institution (HD2020)";
    "State abbreviation (HD2020)";
    "ZIP code (HD2020)";
    "Undergraduate level programs or courses are offered via distance education (IC2020)";
    "Percent of full-time first-time undergraduates awarded any financial aid (SFA1920)";
    "Total men (EF2020  All students  Undergraduate total)";
    "Total women (EF2020  All students  Undergraduate total)";
    "American Indian or Alaska Native total (EF2020A  All students  Undergraduate total)";
    "Asian total (EF2020A  All students  Undergraduate total)";
    "Black or African American total (EF2020A  All students  Undergraduate total)";
    "Hispanic total (EF2020A  All students  Undergraduate total)";
    "Native Hawaiian or Other Pacific Islander total (EF2020A  All students  Undergraduate total)";
    "White total (EF2020A  All students  Undergraduate total)";
    "Grand total (EF2020  All students  Undergraduate total)" ].

Definition col_dict_gender : list (string * string) :=
  [ ("Total men (EF2020  All students  Undergraduate total)", "p_men");
    ("Total women (EF2020  All students  Undergraduate total)", "p_women") ].

Definition col_dict_race : list (string * string) :=
  [ ("American Indian or Alaska Native total (EF2020A  All students  Undergraduate total)",
     "p_native_american");
    ("Asian total (EF2020A  All students  Undergraduate total)", "p_asian");
    ("Black or African American total (EF2020A  All students  Undergraduate total)",
     "p_black");
    ("Hispanic total (EF2020A  All students  Undergraduate total)",
     "p_hispanic");
    ("Native Hawaiian or Other Pacific Islander total (EF2020A  All students  Undergraduate total)",
     "p_hawaiian_pacific");
    ("White total (EF2020A  All students  Undergraduate total)", "p_white") ].

Definition standardized_dict : list (string * string) :=
  [ ("diversity_gender", "scaled_diversity_gender");
    ("diversity_race", "scaled_diversity_race");
    ("Percent of full-time first-time undergraduates awarded any financial aid (SFA1920)",
     "scaled_financial_aid");
    ("Undergraduate level programs or courses are offered via distance education (IC2020)",
     "scaled_distance_educ");
    ("Grand total (EF2020  All students  Undergraduate total)",
     "scaled_total_ug") ].

Definition vars_flipped : list string :=
  [ "scaled_diversity_gender"; "scaled_diversity_race" ].

Definition vars_to_keep : list string :=
  [ "UnitID"; "Institution Name";
    "City location of institution (HD2020)";
    "State abbreviation (HD2020)";
    "need_score" ].

(** The cells "keep only relevant variables" and "select top n universities
    with highest need scores". *)
Definition potential_members (n : nat) (subset_df : dataframe)
  : result dataframe :=
  need_scores_df <- getitem_list subset_df vars_to_keep ;;
  sorted <- sort_values_by "need_score" false need_scores_df ;;
  Ok (head_rows n sorted).

(** The columns the earlier cells add to [subset_df] while the score is
    built: proportions, diversity indices and standardized features. *)
Definition working_columns : list string :=
  map snd col_dict_gender ++ ["diversity_gender"] ++
  map snd col_dict_race ++ ["diversity_race"] ++
  map snd standardized_dict.

(** The columns of [subset_df] when the need scores are in. *)
Definition scored_columns : list string :=
  var_list ++ working_columns ++ ["need_score"].

(** *** Standardization *)

Local Open Scope R_scope.

(** Modelled from the spec: the module [membership] that defines
    [compute_need_scores] is not among the sources.  Section 4.4: the
    z-score subtracts the mean of the feature over the non-customer pool. *)
Definition mean (v : vector) : R := sum v / INR (length v).

(** Modelled from the spec: [membership.compute_need_scores] is missing.
    Section 4.4: the z-score divides by the population standard
    deviation. *)
Definition pstdev (v : vector) : R :=
  sqrt (mean (map (fun x => (x - mean v) * (x - mean v)) v)).

(** Modelled from the spec: [membership.compute_need_scores] is missing.
    Section 4.4, step 1 and its edge case: a feature whose standard
    deviation is 0 makes standardization fail explicitly. *)
Definition standardize (v : vector) : result vector :=
  if Req_dec_T (pstdev v) 0 then Err DegenerateInputError
  else Ok (map (fun x => (x - mean v) / pstdev v) v).

(** Modelled from the spec: [membership.compute_need_scores] is missing.
    Section 4.4, step 2: features in the flip list are multiplied by -1. *)
Definition flip (name : string) (vars_flipped : list string) (v : vector)
  : vector :=
  if existsb (String.eqb name) vars_flipped then map (Rmult (-1)) v else v.

(** Modelled from the spec: [membership.compute_need_scores] is missing.
    Section 4.4, step 3: the unweighted row-wise sum of the columns. *)
Definition row_sums (n : nat) (cols : list vector) : vector :=
  fold_right (zipWith Rplus) (repeat 0 n) cols.

(** Modelled from the spec: [membership.compute_need_scores] is missing.
    Section 4.4, steps 1 to 3 over the numeric columns of the non-customer
    frame with [n] rows: each listed feature is standardized, flipped when
    listed, stored under its standardized name, and the standardized
    columns are added up into [need_score].  A listed feature that is not
    a column raises. *)
Definition compute_need_scores (n : nat) (features : list (string * vector))
    (standardized_dict : list (string * string))
    (vars_flipped : list string)
  : result (list (string * vector) * vector) :=
  scaled <- mapM (fun entry =>
                    match find (fun f => String.eqb (fst f) (fst entry))
                               features with
                    | None => Err KeyError
                    | Some f =>
                        z <- standardize (snd f) ;;
                        Ok (snd entry, flip (snd entry) vars_flipped z)
                    end) standardized_dict ;;
  Ok (scaled, row_sums n (map snd scaled)).

(** The score a row of [need_scores_df] is ranked by: its fifth cell. *)
Definition need_score_of (r : nat * list cell) : R :=
  as_float (nth 4 (snd r) (Num 0)).

(** The projection of a row on the columns at the positions [locs]. *)
Definition project (locs : list nat) (r : nat * list cell)
  : nat * list cell :=
  (fst r, map (fun k => nth k (snd r) (Num 0)) locs).

(** A frame with every column of the scored [subset_df] and one row. *)
Definition sample_subset_df : dataframe :=
  mkDF scored_columns
       [(0%nat,
         ([Num 100654; Text "Alabama A & M University"; Text "Normal";
           Text "AL"; Text "35762"] ++
          repeat (Num 1) 11 ++ repeat (Num 0) 15 ++ [Num 2])%list)].

(** A pool of two non-customers that all offer distance education. *)
Definition constant_feature : list (string * vector) :=
  [("distance_educ", [1; 1]%R)].

End Approach1.

(** ** Approach 2: level of market penetration *)

Module Approach2.
Local Open Scope Z_scope.

(** The two labels of the column [membership_status]; they are also the
    column labels the notebook reads from the pivoted frame. *)
Inductive status : Type := member | non_member.

Definition status_dec (a b : status) : {a = b} + {a <> b}.
Proof. decide equality. Defined.

Definition status_eqb (a b : status) : bool :=
  if status_dec a b then true else false.

(** The label "member" sorts before "non_member". *)
Definition status_leb (a b : status) : bool :=
  match a, b with
  | non_member, member => false
  | _, _ => true
  end.

(** A row of [subset_df] after the merge with the membership status. *)
Record institution : Type := mkInstitution {
  UnitID : Z;
  state : string;
  membership_status : status
}.

Definition group_key : Type := string * status.

Definition key_dec (a b : group_key) : {a = b} + {a <> b}.
Proof. decide equality; [apply status_dec | apply string_dec]. Defined.

Definition key_eqb (a b : group_key) : bool :=
  if key_dec a b then true else false.

Definition key_leb (a b : group_key) : bool :=
  if String.eqb (fst a) (fst b) then status_leb (snd a) (snd b)
  else String.leb (fst a) (fst b).

(** A row of the grouped frame: the two keys and the aggregated [UnitID]. *)
Record group_row : Type := mkGroup {
  g_state : string;
  g_status : status;
  g_UnitID : Z
}.

(** [groupby(['state','membership_status'], as_index=False)
      .agg({'UnitID':'count'})]:
    one row per pair of keys that occurs, in key order, with the number of
    rows carrying the pair. *)
Definition groupby_count (df : list institution) : list group_row :=
  map (fun k =>
         mkGroup (fst k) (snd k)
           (Z.of_nat
              (length
                 (filter (fun r => key_eqb (state r, membership_status r) k)
                         df))))
      (sort_by key_leb
         (nodup key_dec (map (fun r => (state r, membership_status r)) df))).

(** The pivoted frame: its column labels, and for each index value the
    cells under the labels. *)
Record pivot_frame : Type := mkPivot {
  columns : list status;
  rows : list (string * (status -> Z))
}.

(** [pivot_table('UnitID', index='state', columns='membership_status',
                 fill_value=..., aggfunc='sum')].
    The column labels are the statuses that occur in the frame; a cell
    without rows gets [fill_value]. *)
Definition pivot_table (fill_value : Z) (df : list group_row) : pivot_frame :=
  mkPivot
    (sort_by status_leb (nodup status_dec (map g_status df)))
    (map (fun s =>
            (s, fun c =>
                  match filter (fun r => key_eqb (g_state r, g_status r) (s, c))
                               df with
                  | [] => fill_value
                  | cell => fold_right Z.add 0%Z (map g_UnitID cell)
                  end))
         (sort_by String.leb (nodup string_dec (map g_state df)))).

(** [market_df[c]]: a label that is not a column raises. *)
Definition getitem (df : pivot_frame) (c : status) : result (list Z) :=
  if existsb (status_eqb c) (columns df)
  then Ok (map (fun r => snd r c) (rows df))
  else Err KeyError.

(** Division of an integer column by an integer column, cell by cell.  A
    zero divisor gives no finite number: [None]. *)
Definition true_divide (a b : Z) : option Q :=
  if Z.eqb b 0 then None else Some (inject_Z a / inject_Z b)%Q.

(** [market_df] after the cell "calculate market penetration score", as
    its columns. *)
Record market_frame : Type := mkMarket {
  m_state : list string;
  m_member : list Z;
  m_non_member : list Z;
  m_total : list Z;
  market_penetration_score : list (option Q)
}.

(** The cells "preprocess variables" and "calculate market penetration
    score". *)
Definition market_penetration (subset_df : list institution)
  : result market_frame :=
  let market_df :=
    sort_by (fun a b => String.leb (g_state a) (g_state b))
            (groupby_count subset_df) in
  let market_df := pivot_table 0%Z market_df in
  mem <- getitem market_df member ;;
  non <- getitem market_df non_member ;;
  let total := zipWith Z.add mem non in
  mem' <- getitem market_df member ;;
  let score := zipWith true_divide mem' total in
  Ok (mkMarket (map fst (rows market_df)) mem non total score).

(** The number of rows of the input with a given state and status. *)
Definition count_in (df : list institution) (s : string) (c : status) : Z :=
  Z.of_nat (length (filter (fun r => key_eqb (state r, membership_status r)
                                             (s, c)) df)).

Definition key_of (r : institution) : group_key :=
  (state r, membership_status r).

(** The sum of the aggregated cells a predicate selects. *)
Definition cell_sum (sel : group_row -> bool) (g : list group_row) : Z :=
  fold_right Z.add 0 (map g_UnitID (filter sel g)).

(** The frame the pivot is taken of. *)
Definition grouped (df : list institution) : list group_row :=
  sort_by (fun a b => String.leb (g_state a) (g_state b)) (groupby_count df).

(** The index of the pivoted frame: the states that occur, each once. *)
Definition regions (df : list institution) : list string :=
  sort_by String.leb (nodup string_dec (map g_state (grouped df))).

(** The frame the notebook computes when both labels occur. *)
Definition expected_frame (df : list institution) : market_frame :=
  let mem := fun s => count_in df s member in
  let non := fun s => count_in df s non_member in
  mkMarket (regions df)
           (map mem (regions df))
           (map non (regions df))
           (map (fun s => mem s + non s) (regions df))
           (map (fun s => true_divide (mem s) (mem s + non s)) (regions df)).

(** A table of five non-customers in one state, and one of three customers
    in one state. *)
Definition only_non_members : list institution :=
  map (fun u => mkInstitution u "CA" non_member) [1; 2; 3; 4; 5].

Definition only_members : list institution :=
  map (fun u => mkInstitution u "TX" member) [1; 2; 3].

(** *** The specification's scenario: three customers and seven
    non-customers in one state, five non-customers in another. *)

Definition scenario_table : list institution :=
  map (fun u => mkInstitution u "NY" member) [1; 2; 3] ++
  map (fun u => mkInstitution u "NY" non_member) [4; 5; 6; 7; 8; 9; 10] ++
  map (fun u => mkInstitution u "CA" non_member) [11; 12; 13; 14; 15].

End Approach2.

(** ** The cells before and after the three approaches *)

Module Approach3Prep.
Import Np Approach3.

(** A row of [members_df] / [non_members_df] as it is before [dropna]: a
    feature cell may be missing ([None]).  The rows are selected by their
    [UnitID], which is present. *)
Record raw_row : Type := mkRaw {
  raw_UnitID : Z;
  raw_features : list (option R)
}.

(** The cells of a row, if none is missing. *)
Fixpoint all_present (v : list (option R)) : option vector :=
  match v with
  | [] => Some []
  | Some x :: v' =>
      match all_present v' with
      | Some xs => Some (x :: xs)
      | None => None
      end
  | None :: _ => None
  end.

Definition has_missing (r : nat * raw_row) : bool :=
  match all_present (raw_features (snd r)) with
  | Some _ => false
  | None => true
  end.

(** [df.dropna(axis = 0)]: the rows with a missing cell go, the others keep
    their label and their order. *)
Definition dropna (df : frame raw_row) : frame row :=
  flat_map (fun r => match all_present (raw_features (snd r)) with
                     | Some v => [(fst r, mkRow (raw_UnitID (snd r)) v)]
                     | None => []
                     end) df.

(** Approach 3 from the two frames as they are before [dropna]. *)
Definition approach3_from_subset (p top : nat)
    (members_df non_members_df : frame raw_row)
  : result (frame matched_row) :=
  approach3 p top (dropna members_df) (dropna non_members_df).

End Approach3Prep.

Module Approach2Rank.
Import Approach2.

(** [subset_df.merge(ids_status, on='UnitID', how='inner')], on the columns
    the later cells read: [UnitID] and state on the left, [UnitID] and
    [membership_status] on the right.  Every left row is paired with the
    right rows of the same [UnitID].  The rows come in the order of the
    left rows, which is the order pandas gives when no [UnitID] occurs
    twice on the left; pandas groups the rows of a repeated key. *)
Definition merge (subset_df : list (Z * string))
    (ids_status : list (Z * status)) : list institution :=
  flat_map (fun l =>
              map (fun r => mkInstitution (fst l) (snd l) (snd r))
                  (filter (fun r => Z.eqb (fst r) (fst l)) ids_status))
           subset_df.

(** A row of [market_df]. *)
Record market_row : Type := mkMarketRow {
  r_state : string;
  r_member : Z;
  r_non_member : Z;
  r_total : Z;
  r_score : option Q
}.

(** The rows of a frame given by its columns. *)
Fixpoint market_rows (s : list string) (a b t : list Z) (q : list (option Q))
  : list market_row :=
  match s, a, b, t, q with
  | s0 :: s', a0 :: a', b0 :: b', t0 :: t', q0 :: q' =>
      mkMarketRow s0 a0 b0 t0 q0 :: market_rows s' a' b' t' q'
  | _, _, _, _, _ => []
  end.

(** Ascending order of the score column; a missing score sorts last. *)
Definition score_leb (a b : market_row) : bool :=
  match r_score a, r_score b with
  | Some x, Some y => Qle_bool x y
  | Some _, None => true
  | None, Some _ => false
  | None, None => true
  end.

(** [market_df.sort_values(by='market_penetration_score')]. *)
Definition sort_by_score (market_df : market_frame) : list market_row :=
  sort_by score_leb
    (market_rows (m_state market_df) (m_member market_df)
                 (m_non_member market_df) (m_total market_df)
                 (market_penetration_score market_df)).

(** Approach 2 from the merged frame to the sorted one. *)
Definition ranked_regions (subset_df : list institution)
  : result (list market_row) :=
  market_df <- market_penetration subset_df ;;
  Ok (sort_by_score market_df).

(** The cell [market_df.head(15)], for any number of rows. *)
Definition lowest_regions (n : nat) (subset_df : list institution)
  : result (list market_row) :=
  market_df <- ranked_regions subset_df ;;
  Ok (firstn n market_df).

(** The row of the table for a state of the input. *)
Definition row_of (df : list institution) (s : string) : market_row :=
  mkMarketRow s (count_in df s member) (count_in df s non_member)
    (count_in df s member + count_in df s non_member)
    (true_divide (count_in df s member)
                 (count_in df s member + count_in df s non_member)).

(** The order of two rows whose scores are numbers. *)
Definition lower_score (a b : market_row) : Prop :=
  exists qa qb, r_score a = Some qa /\ r_score b = Some qb /\ (qa <= qb)%Q.

End Approach2Rank.

(** ** The cells of Approach 3 on [float64]

    The same cells with the numbers the program has: IEEE binary64 with
    its rounding, [NaN] and infinities.  numpy fixes no order for the
    additions of a sum (pairwise blocks, BLAS); the sums below add from
    left to right.  The proofs of the theorems below do not use the
    order, and the sums of the inputs on which the cells are shown to fail
    are exact or [NaN] in any order. *)

Module Np64.
Import Floats.
Local Open Scope float_scope.

Notation fvector := (list float).
Notation fmatrix := (list (list float)).

Definition sum (v : fvector) : float := fold_left PrimFloat.add v 0.

(** [numpy.linalg.norm] of a vector. *)
Definition norm (v : fvector) : float :=
  PrimFloat.sqrt (sum (map (fun x => x * x) v)).

Definition dot (a b : fvector) : float := sum (zipWith PrimFloat.mul a b).

(** [A.dot(np.transpose(B))]. *)
Definition dot_T (A B : fmatrix) : fmatrix :=
  map (fun a => map (fun b => dot a b) B) A.

(** [np.ones((n,1))]. *)
Definition ones (n : nat) : fmatrix := repeat [1] n.

(** [norm(X,axis=1).reshape((n,1))**2]. *)
Definition sq_norms (X : fmatrix) : fmatrix :=
  map (fun x => [norm x * norm x]) X.

Definition madd (A B : fmatrix) : fmatrix :=
  zipWith (zipWith PrimFloat.add) A B.
Definition msub (A B : fmatrix) : fmatrix :=
  zipWith (zipWith PrimFloat.sub) A B.
Definition mscale (c : float) (A : fmatrix) : fmatrix :=
  map (map (PrimFloat.mul c)) A.

(** [M[i,j]]. *)
Definition entry (M : fmatrix) (i j : nat) : option float :=
  match nth_error M i with
  | Some r => nth_error r j
  | None => None
  end.

(** [M[:,j]]. *)
Definition column (M : fmatrix) (j : nat) : result fvector :=
  mapM (fun r => match nth_error r j with
                 | Some x => Ok x
                 | None => Err IndexError
                 end) M.

(** One step of the reduction of [np.min]: the smaller of two numbers, and
    [NaN] as soon as one of them is [NaN]. *)
Definition minimum (a x : float) : float :=
  if PrimFloat.is_nan a || (a <=? x) then a else x.

(** [np.min]: raises on an empty array. *)
Definition np_min (v : fvector) : result float :=
  match v with
  | [] => Err ValueError
  | x :: v' => Ok (fold_left minimum v' x)
  end.

(** [np.argwhere(v == c)]: [==] is the comparison of IEEE numbers, which
    no [NaN] satisfies. *)
Fixpoint argwhere_from (k : nat) (v : fvector) (c : float) : list nat :=
  match v with
  | [] => []
  | x :: v' =>
      if x =? c then k :: argwhere_from (S k) v' c
      else argwhere_from (S k) v' c
  end.

Definition argwhere (v : fvector) (c : float) : list nat :=
  argwhere_from 0 v c.

(** [norm(A, axis=0)] of an array with [p] columns. *)
Definition norm_axis0 (p : nat) (A : fmatrix) : fvector :=
  map (fun k => norm (map (fun r => nth k r 0) A)) (seq 0 p).

(** No entry of the array is [NaN]. *)
Definition no_nan (M : fmatrix) : Prop :=
  Forall (Forall (fun x => PrimFloat.is_nan x = false)) M.

End Np64.

Module Approach3F64.
Import Floats Np64.
Local Open Scope float_scope.

(** A row of [members_df] / [non_members_df]; a missing cell is [NaN]. *)
Record row : Type := mkRow { UnitID : Z; features : fvector }.

(** [df.dropna(axis = 0)]. *)
Definition dropna (df : frame row) : frame row :=
  filter (fun r => negb (existsb PrimFloat.is_nan (features (snd r)))) df.

(** [np.array(df.iloc[:,1:])]. *)
Definition feature_array (df : frame row) : fmatrix :=
  map (fun r => features (snd r)) df.

(** [df.iloc[:,1:] /= nrm]. *)
Definition div_features (nrm : fvector) (df : frame row) : frame row :=
  map (fun r => (fst r, mkRow (UnitID (snd r))
                              (zipWith PrimFloat.div (features (snd r)) nrm)))
      df.

(** The cell "scale each feature". *)
Definition scale (p : nat) (members_df non_members_df : frame row)
  : frame row * frame row :=
  let members_norm := norm_axis0 p (feature_array members_df) in
  let members_df := div_features members_norm members_df in
  let non_members_df := div_features members_norm non_members_df in
  (members_df, non_members_df).

(** The cell "calculate euclidean distance". *)
Definition euclidean (X Y : fmatrix) : fmatrix :=
  let n := length X in
  let m := length Y in
  let onesn := ones n in
  let onesm := ones m in
  let normX := sq_norms X in
  let normY := sq_norms Y in
  madd (msub (dot_T normX onesm) (mscale 2 (dot_T X Y))) (dot_T onesn normY).

(** The spec's cross-check: direct summation of squared differences. *)
Definition sq_diff_sum (x y : fvector) : float :=
  sum (zipWith (fun a b => (a - b) * (a - b)) x y).

Definition brute_force (X Y : fmatrix) : fmatrix :=
  map (fun x => map (fun y => sq_diff_sum x y) Y) X.

(** The body of the loop of the cell "find the most similar member". *)
Definition match_column (M : fmatrix) (j : nat) : result (nat * float) :=
  vec <- column M j ;;
  lo <- np_min vec ;;
  match argwhere vec lo with
  | i :: _ => lo' <- np_min vec ;; Ok (i, lo')
  | [] => Err IndexError
  end.

(** The loop. *)
Definition matching (M : fmatrix) (m : nat)
  : result (list nat * list float) :=
  found <- mapM (match_column M) (seq 0 m) ;;
  Ok (map fst found, map snd found).

(** A row of [non_members_df] with the two result columns. *)
Record matched_row : Type := mkMatched {
  base : row;
  distance_with_closest_members : float;
  unitid_of_most_similar_member : option Z
}.

(** The two cells that attach the result columns. *)
Definition attach (members_df non_members_df : frame row)
    (match_index : list nat) (matched_euclidean : list float)
  : result (frame matched_row) :=
  with_distance <- assign_list (fun r d => (r, d))
                     non_members_df matched_euclidean ;;
  picked <- iloc members_df match_index ;;
  let unitid_most_similar_members :=
    reset_index (map (fun r => (fst r, UnitID (snd r))) picked) in
  Ok (assign_series (fun rd u => mkMatched (fst rd) (snd rd) u)
        with_distance unitid_most_similar_members).

(** Ascending order of the distance column; [NaN] sorts last. *)
Definition distance_leb (a b : nat * matched_row) : bool :=
  let x := distance_with_closest_members (snd a) in
  let y := distance_with_closest_members (snd b) in
  if PrimFloat.is_nan y then true
  else if PrimFloat.is_nan x then false
  else x <=? y.

(** The cell "select top n universities with highest similarities". *)
Definition potential_members (n : nat) (non_members_df : frame matched_row)
  : frame matched_row :=
  head n (sort_by distance_leb non_members_df).

(** The distance matrix of the two frames after [reset_index] and
    scaling. *)
Definition distance_matrix (p : nat) (members_df non_members_df : frame row)
  : fmatrix :=
  let scaled := scale p (reset_index members_df)
                        (reset_index non_members_df) in
  euclidean (feature_array (fst scaled)) (feature_array (snd scaled)).

(** Approach 3 from the two frames left by [dropna]. *)
Definition approach3 (p top : nat) (members_df non_members_df : frame row)
  : result (frame matched_row) :=
  let members_df := reset_index members_df in
  let non_members_df := reset_index non_members_df in
  let m := length non_members_df in
  let '(members_df, non_members_df) := scale p members_df non_members_df in
  let X := feature_array members_df in
  let Y := feature_array non_members_df in
  let M := euclidean X Y in
  found <- matching M m ;;
  attached <- attach members_df non_members_df (fst found) (snd found) ;;
  Ok (potential_members top attached).

(** Approach 3 from the two frames as they are before [dropna]. *)
Definition approach3_from_subset (p top : nat)
    (members_df non_members_df : frame row)
  : result (frame matched_row) :=
  approach3 p top (dropna members_df) (dropna non_members_df).

(** What one round of the loop records for column [j]: the position [i] of
    the first entry equal to [d], where [d] is an entry of the column that
    no entry of the column is less than. *)
Definition first_argmin (M : fmatrix) (j i : nat) (d : float) : Prop :=
  (exists x, entry M i j = Some x /\ (x =? d) = true) /\
  (exists i0, entry M i0 j = Some d) /\
  forall i' x', entry M i' j = Some x' ->
                (d <=? x') = true /\ ((x' =? d) = true -> (i <= i')%nat).

(** Two customers whose first feature is 0 and one non-customer; and a
    customer identical to a non-customer. *)
Definition zero_column_members : frame row :=
  [(0%nat, mkRow 1001 [0; 1]); (1%nat, mkRow 1002 [0; 2])].
Definition zero_column_non_members : frame row :=
  [(0%nat, mkRow 2001 [1; 1])].


(** The specification's end-to-end scenario. *)
Definition scenario_members : frame row :=
  [(7%nat, mkRow 1001 [1; 0]); (9%nat, mkRow 1002 [0; 1])].
Definition scenario_non_members : frame row :=
  [(2%nat, mkRow 2001 [0.9; 0.1]); (5%nat, mkRow 2002 [0.1; 0.9])].

End Approach3F64.

(** * Proofs *)

Section ListFacts.
Context {A B C D : Type}.

Lemma zipWith_map (f : B -> C -> D) (g : A -> B) (h : A -> C) (l : list A) :
  zipWith f (map g l) (map h l) = map (fun a => f (g a) (h a)) l.
Proof.
  unfold zipWith. induction l as [|a l IH]; simpl; [reflexivity|].
  f_equal. exact IH.
Qed.

Lemma map_repeat_length (f : B -> C) (b : B) (l : list A) :
  map f (repeat b (length l)) = map (fun _ => f b) l.
Proof.
  induction l as [|a l IH]; simpl; [reflexivity|]. f_equal. exact IH.
Qed.

Lemma mapM_Forall2 (f : A -> result B) (P : A -> B -> Prop) (l : list A) :
  (forall a, In a l -> exists b, f a = Ok b /\ P a b) ->
  exists bs, mapM f l = Ok bs /\ Forall2 P l bs.
Proof.
  induction l as [|a l IH]; intros H; simpl.
  - exists []. split; [reflexivity | constructor].
  - destruct (H a (or_introl eq_refl)) as (b & Hb & HP).
    destruct IH as (bs & Hbs & HF); [intros; apply H; right; assumption|].
    exists (b :: bs). rewrite Hb, Hbs. simpl.
    split; [reflexivity | constructor; assumption].
Qed.

Lemma Forall2_nth_error (P : A -> B -> Prop) (l : list A) (bs : list B) :
  Forall2 P l bs ->
  forall j a, nth_error l j = Some a ->
  exists b, nth_error bs j = Some b /\ P a b.
Proof.
  induction 1 as [|a0 b0 l bs HP HF IH]; intros [|j] a Hj; simpl in *;
    try discriminate.
  - injection Hj as <-. exists b0. auto.
  - apply IH. exact Hj.
Qed.

Lemma nth_error_zipWith (f : A -> B -> C) (a : list A) (b : list B)
    (k : nat) (x : A) (y : B) :
  nth_error a k = Some x -> nth_error b k = Some y ->
  nth_error (zipWith f a b) k = Some (f x y).
Proof.
  unfold zipWith. revert b k.
  induction a as [|a0 a IH]; intros [|b0 b] [|k] Ha Hb; simpl in *;
    try discriminate.
  - congruence.
  - apply IH; assumption.
Qed.

Lemma length_zipWith (f : A -> B -> C) (a : list A) (b : list B) :
  length (zipWith f a b) = Nat.min (length a) (length b).
Proof. unfold zipWith. rewrite length_map. apply length_combine. Qed.

Lemma nth_error_combine_seq (l : list A) (k j : nat) (a : A) :
  nth_error l j = Some a ->
  nth_error (combine (seq k (length l)) l) j = Some (k + j, a).
Proof.
  revert k j. induction l as [|a0 l IH]; intros k [|j] Hj; simpl in *;
    try discriminate.
  - rewrite Nat.add_0_r. congruence.
  - rewrite (IH (S k) j Hj). f_equal. f_equal. lia.
Qed.

Lemma loc_combine_seq (l : list A) (k j : nat) (a : A) :
  nth_error l j = Some a ->
  loc (combine (seq k (length l)) l) (k + j) = Some a.
Proof.
  revert k j. induction l as [|a0 l IH]; intros k [|j] Hj; simpl in *;
    try discriminate.
  - rewrite Nat.add_0_r, Nat.eqb_refl. congruence.
  - destruct (Nat.eqb_spec k (k + S j)) as [Heq|_]; [lia|].
    replace (k + S j) with (S k + j) by lia. apply IH. exact Hj.
Qed.

Lemma length_reset_index (df : frame A) : length (reset_index df) = length df.
Proof.
  unfold reset_index.
  rewrite length_combine, length_seq, length_map. apply Nat.min_id.
Qed.

Lemma nth_error_reset_index (df : frame A) (j l : nat) (r : A) :
  nth_error df j = Some (l, r) -> nth_error (reset_index df) j = Some (j, r).
Proof.
  intros Hj. unfold reset_index.
  rewrite <- (length_map snd df).
  apply (nth_error_combine_seq (map snd df) 0 j).
  rewrite nth_error_map, Hj. reflexivity.
Qed.

Lemma loc_reset_index (s : frame A) (j l : nat) (a : A) :
  nth_error s j = Some (l, a) -> loc (reset_index s) j = Some a.
Proof.
  intros Hj. unfold reset_index.
  rewrite <- (length_map snd s).
  apply (loc_combine_seq (map snd s) 0 j).
  rewrite nth_error_map, Hj. reflexivity.
Qed.

Lemma map_snd_reset_index (df : frame A) :
  map snd (reset_index df) = map snd df.
Proof.
  unfold reset_index. rewrite <- (length_map snd df).
  generalize (map snd df) 0%nat. clear df.
  induction l as [|a l IH]; intros k; simpl; [reflexivity|].
  f_equal. apply IH.
Qed.

End ListFacts.

Lemma iloc_in_range (A : Type) (df : frame A) (idx : list nat) :
  (forall i, In i idx -> i < length df) ->
  exists picked, iloc df idx = Ok picked /\
                 length picked = length idx /\
                 Forall2 (fun i r => nth_error df i = Some r) idx picked.
Proof.
  intros Hin. unfold iloc.
  destruct (@mapM_Forall2 _ _
              (fun i => match nth_error df i with
                        | Some r => Ok r
                        | None => Err IndexError
                        end)
              (fun i r => nth_error df i = Some r) idx)
    as (picked & Hp & HF).
  { intros i Hi. apply Hin, nth_error_Some in Hi.
    destruct (nth_error df i) as [r|]; [|congruence]. exists r. auto. }
  exists picked. split; [exact Hp|]. split; [|exact HF].
  symmetry. exact (Forall2_length HF).
Qed.

(** ** Facts on sorting and [head] *)

Section SortByFacts.
Variable A : Type.
Variable leb : A -> A -> bool.

Lemma insert_by_perm (a : A) (l : list A) :
  Permutation (insert_by leb a l) (a :: l).
Proof.
  induction l as [|b l IH]; simpl; [reflexivity|].
  destruct (leb a b); [reflexivity|].
  rewrite IH. apply perm_swap.
Qed.

Lemma sort_by_perm (l : list A) : Permutation (sort_by leb l) l.
Proof.
  induction l as [|a l IH]; simpl; [reflexivity|].
  rewrite insert_by_perm. apply perm_skip, IH.
Qed.

Lemma sort_by_In (l : list A) (a : A) : In a (sort_by leb l) <-> In a l.
Proof.
  split; apply Permutation_in;
    [|apply Permutation_sym]; apply sort_by_perm.
Qed.

Lemma sort_by_NoDup (l : list A) : NoDup l -> NoDup (sort_by leb l).
Proof.
  apply Permutation_NoDup, Permutation_sym, sort_by_perm.
Qed.

End SortByFacts.

Section SortValuesFacts.
Variable A : Type.
Variable key : A -> R.
Variable ascending : bool.

Lemma precedes_in_order (a b : A) :
  precedes key ascending a b = true -> in_order key ascending a b.
Proof.
  unfold precedes, in_order, Np.Rleb.
  destruct ascending; destruct (Rle_dec _ _); congruence.
Qed.

Lemma not_precedes_in_order (a b : A) :
  precedes key ascending a b = false -> in_order key ascending b a.
Proof.
  unfold precedes, in_order, Np.Rleb.
  destruct ascending; destruct (Rle_dec _ _); try congruence; intros _; lra.
Qed.

Lemma in_order_trans (a b c : A) :
  in_order key ascending a b -> in_order key ascending b c ->
  in_order key ascending a c.
Proof. unfold in_order. destruct ascending; lra. Qed.

Lemma sort_values_perm (l : list A) :
  Permutation (sort_values key ascending l) l.
Proof. apply sort_by_perm. Qed.

Lemma insert_row_sorted (a : A) (l : list A) :
  StronglySorted (in_order key ascending) l ->
  StronglySorted (in_order key ascending)
                 (insert_by (precedes key ascending) a l).
Proof.
  induction 1 as [|b l Hs IH Hb]; simpl.
  - constructor; constructor.
  - destruct (precedes key ascending a b) eqn:Hab.
    + apply precedes_in_order in Hab.
      constructor; [constructor; assumption|].
      constructor; [assumption|].
      eapply Forall_impl; [|exact Hb].
      intros c Hbc. exact (@in_order_trans a b c Hab Hbc).
    + apply not_precedes_in_order in Hab.
      constructor; [exact IH|].
      apply (Permutation_Forall (Permutation_sym (insert_by_perm _ a l))).
      constructor; assumption.
Qed.

Lemma sort_values_sorted (l : list A) :
  StronglySorted (in_order key ascending) (sort_values key ascending l).
Proof.
  induction l as [|a l IH]; simpl; [constructor|].
  apply insert_row_sorted, IH.
Qed.

Lemma sorted_firstn (n : nat) (l : list A) :
  StronglySorted (in_order key ascending) l ->
  StronglySorted (in_order key ascending) (firstn n l).
Proof.
  intros Hs. revert n.
  induction Hs as [|a l Hs IH Ha]; intros [|n]; simpl; try constructor.
  - apply IH.
  - rewrite Forall_forall in *. intros b Hb. apply Ha.
    rewrite <- (firstn_skipn n l). apply in_or_app. auto.
Qed.

Lemma sorted_firstn_skipn (n : nat) (l : list A) (a b : A) :
  StronglySorted (in_order key ascending) l ->
  In a (firstn n l) -> In b (skipn n l) -> in_order key ascending a b.
Proof.
  intros Hs. revert n.
  induction Hs as [|c l Hs IH Hc]; intros [|n]; simpl; try tauto.
  intros [<-|Ha] Hb.
  - rewrite Forall_forall in Hc. apply Hc.
    rewrite <- (firstn_skipn n l). apply in_or_app. auto.
  - exact (IH n Ha Hb).
Qed.

Lemma head_sort_values_spec (n : nat) (l : list A) :
  let kept := firstn n (sort_values key ascending l) in
  length kept = Nat.min n (length l) /\
  Permutation (kept ++ beyond_head key ascending n l) l /\
  StronglySorted (in_order key ascending) kept /\
  forall a b, In a kept -> In b (beyond_head key ascending n l) ->
              in_order key ascending a b.
Proof.
  simpl. unfold beyond_head. split; [|split; [|split]].
  - rewrite length_firstn.
    rewrite (Permutation_length (sort_values_perm l)). reflexivity.
  - rewrite firstn_skipn. apply sort_values_perm.
  - apply sorted_firstn, sort_values_sorted.
  - intros a b. apply sorted_firstn_skipn, sort_values_sorted.
Qed.

End SortValuesFacts.

(** ** Approach 1 *)

Module Approach1Facts.
Import Np Approach1.
Local Open Scope string_scope.

Lemma get_loc_In (c : string) (cols : list string) :
  In c cols -> exists k, get_loc c cols = Ok k.
Proof.
  induction cols as [|c' cols IH]; intros Hin; [destruct Hin|]. simpl.
  destruct (String.eqb_spec c c') as [_|Hne]; [exists 0%nat; reflexivity|].
  destruct Hin as [Heq|Hin]; [congruence|].
  destruct (IH Hin) as (k & ->). exists (S k). reflexivity.
Qed.

Lemma getitem_list_spec (df : dataframe) (cols : list string) :
  incl cols (columns df) ->
  exists locs,
    Forall2 (fun c k => get_loc c (columns df) = Ok k) cols locs /\
    getitem_list df cols = Ok (mkDF cols (map (project locs) (rows df))).
Proof.
  intros Hincl. unfold getitem_list.
  destruct (@mapM_Forall2 _ _ (fun c => get_loc c (columns df))
              (fun c k => get_loc c (columns df) = Ok k) cols)
    as (locs & -> & HF).
  { intros c Hc. destruct (get_loc_In c (columns df) (Hincl c Hc)) as (k & Hk).
    exists k. auto. }
  exists locs. split; [exact HF | reflexivity].
Qed.

Lemma potential_members_spec (n : nat) (df : dataframe) :
  incl vars_to_keep (columns df) ->
  exists locs,
    Forall2 (fun c k => get_loc c (columns df) = Ok k) vars_to_keep locs /\
    potential_members n df
    = Ok (mkDF vars_to_keep
            (firstn n (sort_values need_score_of false
                         (map (project locs) (rows df))))).
Proof.
  intros Hincl. unfold potential_members.
  destruct (getitem_list_spec df Hincl) as (locs & HF & ->).
  exists locs. split; [exact HF|]. reflexivity.
Qed.

Lemma working_columns_dropped :
  forall c, In c working_columns -> ~ In c vars_to_keep.
Proof.
  assert (H : forallb (fun c => negb (existsb (String.eqb c) vars_to_keep))
                      working_columns = true) by (vm_compute; reflexivity).
  rewrite forallb_forall in H. intros c Hc Hin.
  specialize (H c Hc). apply negb_true_iff in H.
  assert (Ht : existsb (String.eqb c) vars_to_keep = true).
  { apply existsb_exists. exists c. split; [exact Hin | apply String.eqb_refl]. }
  congruence.
Qed.

(** C8, as stated, fails: next to [UnitID] and [need_score] the returned
    table has the name, city and state columns. *)
Lemma potential_members_keeps_name_city_state :
  exists out,
    potential_members 100 sample_subset_df = Ok out /\
    columns out = vars_to_keep /\
    In "Institution Name" (columns out) /\
    "Institution Name" <> "UnitID" /\ "Institution Name" <> "need_score" /\
    ~ (forall c, In c (columns out) -> c = "UnitID" \/ c = "need_score").
Proof.
  eexists. split; [reflexivity|]. cbn [columns].
  split; [reflexivity|]. split; [right; left; reflexivity|].
  split; [discriminate|]. split; [discriminate|].
  intros H. destruct (H "Institution Name"); [right; left; reflexivity | |];
    discriminate.
Qed.

(** C8: from a frame that has the kept columns, the returned table has
    exactly the columns [UnitID], [Institution Name], city, state and
    [need_score], none of the working columns, at most [n] rows, in
    descending order of [need_score], and no row left out has a higher
    score than a row that is kept. *)
Theorem potential_members_top_need (n : nat) (df : dataframe) :
  incl vars_to_keep (columns df) ->
  exists out locs excluded,
    potential_members n df = Ok out /\
    columns out = vars_to_keep /\
    (forall c, In c working_columns -> ~ In c (columns out)) /\
    (length (rows out) <= n)%nat /\
    length (rows out) = Nat.min n (length (rows df)) /\
    StronglySorted (fun a b => (need_score_of b <= need_score_of a)%R)
                   (rows out) /\
    Forall2 (fun c k => get_loc c (columns df) = Ok k) vars_to_keep locs /\
    Permutation (rows out ++ excluded) (map (project locs) (rows df)) /\
    forall a b, In a (rows out) -> In b excluded ->
                (need_score_of b <= need_score_of a)%R.
Proof.
  intros Hincl.
  destruct (potential_members_spec n df Hincl) as (locs & HF & Hout).
  destruct (head_sort_values_spec need_score_of false n
              (map (project locs) (rows df)))
    as (Hlen & Hperm & Hs & Hle).
  rewrite length_map in Hlen.
  eexists. exists locs. eexists.
  split; [exact Hout|]. cbn [columns rows].
  split; [reflexivity|].
  split; [exact working_columns_dropped|].
  split; [rewrite Hlen; apply Nat.le_min_l|].
  split; [exact Hlen|]. split; [exact Hs|]. split; [exact HF|].
  split; [exact Hperm | exact Hle].
Qed.

(** *** Standardization *)

Lemma mapM_Err (A B : Type) (f : A -> result B) (e : error) (l : list A) :
  (forall a, In a l -> (exists b, f a = Ok b) \/ f a = Err e) ->
  (exists a, In a l /\ f a = Err e) ->
  mapM f l = Err e.
Proof.
  induction l as [|a l IH]; intros Hall (a0 & Hin & He); [destruct Hin|].
  simpl. destruct (Hall a (or_introl eq_refl)) as [(b & Hb)|Ha].
  - rewrite Hb. simpl. rewrite IH; [reflexivity | |].
    + intros; apply Hall; right; assumption.
    + destruct Hin as [->|Hin]; [congruence|]. exists a0. auto.
  - rewrite Ha. reflexivity.
Qed.

Lemma standardize_cases (v : vector) :
  (exists z, standardize v = Ok z /\ pstdev v <> 0%R) \/
  (standardize v = Err DegenerateInputError /\ pstdev v = 0%R).
Proof.
  unfold standardize. destruct (Req_dec_T (pstdev v) 0); [right|left]; eauto.
Qed.

(** C9: when the listed features are columns of the frame and one of them
    has population standard deviation 0, computing the need scores fails
    with [DegenerateInputError]; no score is returned. *)
Theorem zero_variance_is_DegenerateInputError
    (n : nat) (features : list (string * vector))
    (dict : list (string * string)) (flipped : list string)
    (raw name : string) (f : string * vector) :
  (forall e, In e dict ->
     find (fun f => String.eqb (fst f) (fst e)) features <> None) ->
  In (raw, name) dict ->
  find (fun f => String.eqb (fst f) raw) features = Some f ->
  pstdev (snd f) = 0%R ->
  compute_need_scores n features dict flipped = Err DegenerateInputError.
Proof.
  intros Hall Hin Hf Hsd. unfold compute_need_scores.
  rewrite (@mapM_Err _ _ _ DegenerateInputError); [reflexivity | |].
  - intros e He. specialize (Hall e He).
    destruct (find _ features) as [g|]; [|congruence].
    destruct (standardize_cases (snd g)) as [(z & -> & _)|[-> _]];
      [left; eexists; reflexivity | right; reflexivity].
  - exists (raw, name). split; [exact Hin|]. cbn [fst snd]. rewrite Hf.
    destruct (standardize_cases (snd f)) as [(z & _ & Hne)|[-> _]];
      [contradiction | reflexivity].
Qed.

Lemma incl_forallb (l1 l2 : list string) :
  forallb (fun c => existsb (String.eqb c) l2) l1 = true -> incl l1 l2.
Proof.
  intros H c Hc. rewrite forallb_forall in H.
  specialize (H c Hc). apply existsb_exists in H as (c' & Hin & Heq).
  apply String.eqb_eq in Heq. subst c'. exact Hin.
Qed.

Lemma potential_members_top_need_sample :
  exists out locs excluded,
    potential_members 100 sample_subset_df = Ok out /\
    columns out = vars_to_keep /\
    (forall c, In c working_columns -> ~ In c (columns out)) /\
    (length (rows out) <= 100)%nat /\
    length (rows out) = Nat.min 100 (length (rows sample_subset_df)) /\
    StronglySorted (fun a b => (need_score_of b <= need_score_of a)%R)
                   (rows out) /\
    Forall2 (fun c k => get_loc c (columns sample_subset_df) = Ok k)
            vars_to_keep locs /\
    Permutation (rows out ++ excluded)
                (map (project locs) (rows sample_subset_df)) /\
    forall a b, In a (rows out) -> In b excluded ->
                (need_score_of b <= need_score_of a)%R.
Proof.
  apply (@potential_members_top_need 100 sample_subset_df).
  apply incl_forallb. vm_compute. reflexivity.
Defined.

Lemma pstdev_constant : pstdev [1; 1]%R = 0%R.
Proof.
  unfold pstdev, mean. simpl.
  replace ((1 + (1 + 0)) / (1 + 1))%R with 1%R by lra.
  replace (((1 - 1) * (1 - 1) + ((1 - 1) * (1 - 1) + 0)) / (1 + 1))%R
    with 0%R by lra.
  apply sqrt_0.
Qed.

Lemma zero_variance_sample :
  compute_need_scores 2 constant_feature
    [("distance_educ", "scaled_distance_educ")] []
  = Err DegenerateInputError.
Proof.
  apply (@zero_variance_is_DegenerateInputError 2 constant_feature
           [("distance_educ", "scaled_distance_educ")] []
           "distance_educ" "scaled_distance_educ"
           ("distance_educ", [1; 1]%R)).
  - intros e [<-|[]]. discriminate.
  - left. reflexivity.
  - reflexivity.
  - exact pstdev_constant.
Defined.

End Approach1Facts.

(** ** Approach 2 *)

Module Approach2Facts.
Import Approach2.
Local Open Scope Z_scope.

Lemma cell_sum_perm (sel : group_row -> bool) (g g' : list group_row) :
  Permutation g g' -> cell_sum sel g = cell_sum sel g'.
Proof.
  unfold cell_sum.
  induction 1 as [|x g g' _ IH|x y g|g g' g'' _ IH1 _ IH2]; simpl.
  - reflexivity.
  - destruct (sel x); simpl; lia.
  - destruct (sel x), (sel y); simpl; lia.
  - lia.
Qed.

Lemma key_eqb_eq (a b : group_key) : key_eqb a b = true <-> a = b.
Proof. unfold key_eqb. destruct (key_dec a b); split; congruence. Qed.

Lemma key_eqb_refl (a : group_key) : key_eqb a a = true.
Proof. apply key_eqb_eq. reflexivity. Qed.

Lemma status_eqb_eq (a b : status) : status_eqb a b = true <-> a = b.
Proof. unfold status_eqb. destruct (status_dec a b); split; congruence. Qed.

Lemma cell_sum_groups (cnt : group_key -> Z) (keys : list group_key)
    (k0 : group_key) :
  NoDup keys ->
  cell_sum (fun r => key_eqb (g_state r, g_status r) k0)
           (map (fun k => mkGroup (fst k) (snd k) (cnt k)) keys)
  = if in_dec key_dec k0 keys then cnt k0 else 0.
Proof.
  unfold cell_sum.
  induction 1 as [|k keys Hk Hnd IH]; simpl; [reflexivity|].
  rewrite <- surjective_pairing.
  destruct (key_eqb k k0) eqn:E; simpl; rewrite IH.
  - apply key_eqb_eq in E. subst k0.
    destruct (in_dec key_dec k keys); [contradiction|].
    destruct (key_dec k k); [lia | congruence].
  - destruct (key_dec k k0) as [->|Hne].
    + rewrite key_eqb_refl in E. discriminate.
    + destruct (in_dec key_dec k0 keys); reflexivity.
Qed.

Lemma count_in_absent (df : list institution) (s : string) (c : status) :
  ~ In (s, c) (map key_of df) -> count_in df s c = 0.
Proof.
  unfold count_in. intros Hn.
  induction df as [|r df IH]; simpl; [reflexivity|].
  destruct (key_eqb (state r, membership_status r) (s, c)) eqn:E.
  - apply key_eqb_eq in E. exfalso. apply Hn. left. exact E.
  - apply IH. intros H. apply Hn. right. exact H.
Qed.

Lemma count_in_nonneg (df : list institution) (s : string) (c : status) :
  0 <= count_in df s c.
Proof. unfold count_in. lia. Qed.

Lemma count_in_present (df : list institution) (r : institution) :
  In r df -> 1 <= count_in df (state r) (membership_status r).
Proof.
  unfold count_in. intros Hin.
  induction df as [|r' df IH]; [destruct Hin|]. simpl.
  destruct (key_eqb (state r', membership_status r')
                    (state r, membership_status r)) eqn:E.
  - simpl. lia.
  - destruct Hin as [->|Hin]; [|exact (IH Hin)].
    rewrite key_eqb_refl in E. discriminate.
Qed.

Lemma grouped_perm (df : list institution) :
  Permutation (grouped df)
    (map (fun k => mkGroup (fst k) (snd k) (count_in df (fst k) (snd k)))
         (nodup key_dec (map key_of df))).
Proof.
  unfold grouped. rewrite sort_by_perm. unfold groupby_count.
  rewrite sort_by_perm.
  apply Permutation_refl'. apply map_ext. intros [s c]. reflexivity.
Qed.

Lemma pivot_cell (df : list institution) (s : string) (c : status) :
  match filter (fun r => key_eqb (g_state r, g_status r) (s, c)) (grouped df)
  with
  | [] => 0
  | cell => fold_right Z.add 0 (map g_UnitID cell)
  end = count_in df s c.
Proof.
  transitivity (cell_sum (fun r => key_eqb (g_state r, g_status r) (s, c))
                         (grouped df)).
  { unfold cell_sum. destruct (filter _ (grouped df)); reflexivity. }
  rewrite (cell_sum_perm _ (grouped_perm df)).
  rewrite (cell_sum_groups (fun k => count_in df (fst k) (snd k)))
    by apply NoDup_nodup.
  destruct (in_dec key_dec (s, c) (nodup key_dec (map key_of df)))
    as [_|Hn]; [reflexivity|].
  symmetry. apply count_in_absent. intros H. apply Hn.
  apply nodup_In. exact H.
Qed.

Lemma grouped_key (df : list institution) (s : string) (c : status) :
  (exists g, In g (grouped df) /\ g_state g = s /\ g_status g = c) <->
  (exists r, In r df /\ state r = s /\ membership_status r = c).
Proof.
  split.
  - intros (g & Hg & <- & <-).
    apply (Permutation_in _ (grouped_perm df)) in Hg.
    apply in_map_iff in Hg as ([s c] & <- & Hk). simpl.
    apply nodup_In, in_map_iff in Hk as (r & Hr & Hin).
    exists r. unfold key_of in Hr. injection Hr as <- <-. auto.
  - intros (r & Hin & <- & <-).
    exists (mkGroup (state r) (membership_status r)
                    (count_in df (state r) (membership_status r))).
    split; [|auto].
    apply (Permutation_in _ (Permutation_sym (grouped_perm df))).
    apply in_map_iff. exists (key_of r). split; [reflexivity|].
    apply nodup_In, in_map. exact Hin.
Qed.

Lemma regions_NoDup (df : list institution) : NoDup (regions df).
Proof. apply sort_by_NoDup, NoDup_nodup. Qed.

Lemma regions_In (df : list institution) (s : string) :
  In s (regions df) <-> exists r, In r df /\ state r = s.
Proof.
  unfold regions. rewrite sort_by_In, nodup_In, in_map_iff. split.
  - intros (g & <- & Hg).
    destruct (proj1 (grouped_key df (g_state g) (g_status g)))
      as (r & Hr & Hs & _); [exists g; auto|].
    exists r. auto.
  - intros (r & Hr & <-).
    destruct (proj2 (grouped_key df (state r) (membership_status r)))
      as (g & Hg & Hs & _); [exists r; auto|].
    exists g. auto.
Qed.

Lemma column_present (df : list institution) (c : status) :
  (exists r, In r df /\ membership_status r = c) ->
  existsb (status_eqb c)
          (sort_by status_leb (nodup status_dec (map g_status (grouped df))))
  = true.
Proof.
  intros (r & Hr & <-). apply existsb_exists.
  exists (membership_status r). split; [|apply status_eqb_eq; reflexivity].
  apply sort_by_In, nodup_In, in_map_iff.
  destruct (proj2 (grouped_key df (state r) (membership_status r)))
    as (g & Hg & _ & Hc); [exists r; auto|].
  exists g. auto.
Qed.

Lemma column_absent (df : list institution) (c : status) :
  ~ (exists r, In r df /\ membership_status r = c) ->
  existsb (status_eqb c)
          (sort_by status_leb (nodup status_dec (map g_status (grouped df))))
  = false.
Proof.
  intros Hn. apply not_true_is_false. intros H. apply Hn.
  apply existsb_exists in H as (c' & Hin & Hc).
  apply status_eqb_eq in Hc. subst c'.
  apply sort_by_In, nodup_In, in_map_iff in Hin as (g & Hc & Hg).
  destruct (proj1 (grouped_key df (g_state g) c)) as (r & Hr & _ & Hrc);
    [exists g; auto|].
  exists r. auto.
Qed.

Lemma getitem_present (df : list institution) (c : status) :
  (exists r, In r df /\ membership_status r = c) ->
  getitem (pivot_table 0 (grouped df)) c
  = Ok (map (fun s => count_in df s c) (regions df)).
Proof.
  intros Hc. unfold getitem, pivot_table. simpl columns. simpl rows.
  rewrite (column_present df Hc). f_equal.
  rewrite map_map. apply map_ext. intros s. apply pivot_cell.
Qed.

Lemma getitem_absent (df : list institution) (c : status) :
  ~ (exists r, In r df /\ membership_status r = c) ->
  getitem (pivot_table 0 (grouped df)) c = Err KeyError.
Proof.
  intros Hc. unfold getitem, pivot_table. simpl columns.
  rewrite (column_absent df Hc). reflexivity.
Qed.

Lemma market_penetration_ok (df : list institution) :
  (exists r, In r df /\ membership_status r = member) ->
  (exists r, In r df /\ membership_status r = non_member) ->
  market_penetration df = Ok (expected_frame df).
Proof.
  intros Hm Hn. unfold market_penetration. fold (grouped df).
  rewrite (getitem_present df Hm), (getitem_present df Hn). simpl.
  unfold expected_frame. rewrite !zipWith_map.
  unfold pivot_table. simpl rows. rewrite map_map. simpl fst.
  rewrite map_id. reflexivity.
Qed.

Lemma market_penetration_KeyError (df : list institution) (c : status) :
  ~ (exists r, In r df /\ membership_status r = c) ->
  market_penetration df = Err KeyError.
Proof.
  intros Hn. unfold market_penetration. fold (grouped df).
  destruct c.
  - rewrite (getitem_absent df Hn). reflexivity.
  - rewrite (getitem_absent df Hn). unfold getitem.
    destruct (existsb _ _); reflexivity.
Qed.

Lemma count_in_cons (r : institution) (df : list institution)
    (s : string) (c : status) :
  count_in (r :: df) s c
  = (if key_eqb (key_of r) (s, c) then 1 else 0) + count_in df s c.
Proof.
  unfold count_in, key_of. cbn [filter].
  destruct (key_eqb (state r, membership_status r) (s, c));
    cbn [length]; lia.
Qed.

(** One row adds one to the count of its own state, if that state is among
    the index values, and nothing to the others. *)
Lemma sum_over_regions_cons (c : status) (r : institution)
    (df : list institution) (idx : list string) :
  NoDup idx ->
  fold_right Z.add 0 (map (fun s => count_in (r :: df) s c) idx)
  = fold_right Z.add 0 (map (fun s => count_in df s c) idx)
    + if in_dec string_dec (state r) idx
      then (if status_eqb (membership_status r) c then 1 else 0)
      else 0.
Proof.
  induction 1 as [|s l Hs Hl IH]; cbn [map fold_right].
  - destruct (in_dec string_dec (state r) []) as [[]|_]. reflexivity.
  - rewrite IH, count_in_cons.
    destruct (key_eqb (key_of r) (s, c)) eqn:E.
    + apply key_eqb_eq in E. unfold key_of in E. injection E as <- <-.
      destruct (in_dec string_dec (state r) l); [contradiction|].
      destruct (in_dec string_dec (state r) (state r :: l)) as [_|Hn];
        [|exfalso; apply Hn; left; reflexivity].
      rewrite (proj2 (status_eqb_eq _ _) eq_refl). lia.
    + assert (Hsame :
        (if in_dec string_dec (state r) (s :: l)
         then (if status_eqb (membership_status r) c then 1 else 0) else 0)
        = (if in_dec string_dec (state r) l
           then (if status_eqb (membership_status r) c then 1 else 0) else 0)).
      { destruct (in_dec string_dec (state r) (s :: l)) as [[Hi|Hi]|Hi],
                 (in_dec string_dec (state r) l) as [Hj|Hj];
          try reflexivity.
        - destruct (status_eqb (membership_status r) c) eqn:Es;
            [|reflexivity].
          apply status_eqb_eq in Es. subst s c.
          unfold key_of in E. rewrite key_eqb_refl in E. discriminate.
        - contradiction.
        - exfalso. apply Hi. right. exact Hj. }
      rewrite Hsame. lia.
Qed.

(** Every row of the input is counted under its own state. *)
Lemma sum_over_regions (c : status) (idx : list string)
    (df : list institution) :
  NoDup idx -> (forall r, In r df -> In (state r) idx) ->
  fold_right Z.add 0 (map (fun s => count_in df s c) idx)
  = Z.of_nat (length (filter (fun r => status_eqb (membership_status r) c)
                             df)).
Proof.
  intros Hnd. induction df as [|r df IH]; intros Hin.
  - cbn [filter length]. clear.
    induction idx as [|s idx IH]; cbn [map fold_right]; [reflexivity|].
    rewrite IH. reflexivity.
  - rewrite (sum_over_regions_cons c r df Hnd), IH
      by (intros; apply Hin; right; assumption).
    destruct (in_dec string_dec (state r) idx) as [_|Hn].
    + cbn [filter].
      destruct (status_eqb (membership_status r) c); cbn [length]; lia.
    + exfalso. apply Hn, Hin. left. reflexivity.
Qed.

Lemma true_divide_ratio (m n : Z) :
  0 <= m -> 0 <= n -> 1 <= m + n ->
  exists q, true_divide m (m + n) = Some q /\
            q = (inject_Z m / inject_Z (m + n))%Q /\
            (0 <= q)%Q /\ (q <= 1)%Q /\
            (m = 0 -> (q == 0)%Q) /\ (n = 0 -> (q == 1)%Q).
Proof.
  intros Hm Hn Ht. unfold true_divide.
  destruct (Z.eqb_spec (m + n) 0) as [E|_]; [lia|].
  eexists. split; [reflexivity|]. split; [reflexivity|].
  assert (Hpos : (0 < inject_Z (m + n))%Q).
  { change (inject_Z 0 < inject_Z (m + n))%Q. rewrite <- Zlt_Qlt. lia. }
  repeat split.
  - apply Qle_shift_div_l; [exact Hpos|].
    rewrite Qmult_0_l. change (inject_Z 0 <= inject_Z m)%Q.
    rewrite <- Zle_Qle. exact Hm.
  - apply Qle_shift_div_r; [exact Hpos|].
    rewrite Qmult_1_l. rewrite <- Zle_Qle. lia.
  - intros ->. unfold Qdiv. apply Qmult_0_l.
  - intros ->. rewrite Z.add_0_r. apply Qmult_inv_r.
    intros E. rewrite Z.add_0_r in Hpos. rewrite E in Hpos.
    exact (Qlt_irrefl 0 Hpos).
Qed.

Lemma count_in_region (df : list institution) (s : string) :
  (exists r, In r df /\ state r = s) ->
  1 <= count_in df s member + count_in df s non_member.
Proof.
  intros (r & Hr & <-).
  pose proof (count_in_present df r Hr) as H.
  pose proof (count_in_nonneg df (state r) member).
  pose proof (count_in_nonneg df (state r) non_member).
  destruct (membership_status r); lia.
Qed.

Lemma count_in_none (df : list institution) (s : string) (c : status) :
  (forall r, In r df -> state r = s -> membership_status r <> c) ->
  count_in df s c = 0.
Proof.
  intros H. apply count_in_absent. intros Hin.
  apply in_map_iff in Hin as (r & Hk & Hr).
  unfold key_of in Hk. injection Hk as Hs Hc.
  exact (H r Hr Hs Hc).
Qed.

(** C6, as stated, fails on a table without non-customers: reading the
    column [non_member] of the pivoted frame raises, and no score is
    computed for the region of the table. *)
Lemma market_penetration_only_members :
  (exists r, In r only_members /\ state r = "TX"%string) /\
  market_penetration only_members = Err KeyError /\
  ~ exists out, market_penetration only_members = Ok out.
Proof.
  split; [|split].
  - exists (mkInstitution 1 "TX" member). split; [left|]; reflexivity.
  - vm_compute. reflexivity.
  - intros (out & H). vm_compute in H. discriminate.
Qed.

(** C6: on a table where both statuses occur, the frame has one row per
    state of the table; its counts are the numbers of customers and of
    non-customers of the state, its score is the customers' share of their
    sum and lies between 0 and 1; and the customer counts add up to the
    number of customers in the table. *)
Theorem market_penetration_scores (df : list institution) :
  (exists r, In r df /\ membership_status r = member) ->
  (exists r, In r df /\ membership_status r = non_member) ->
  exists out,
    market_penetration df = Ok out /\
    NoDup (m_state out) /\
    (forall s, In s (m_state out) <-> exists r, In r df /\ state r = s) /\
    (forall k s, nth_error (m_state out) k = Some s ->
       exists q,
         nth_error (m_member out) k = Some (count_in df s member) /\
         nth_error (m_non_member out) k = Some (count_in df s non_member) /\
         nth_error (m_total out) k
         = Some (count_in df s member + count_in df s non_member) /\
         nth_error (market_penetration_score out) k = Some (Some q) /\
         q = (inject_Z (count_in df s member)
              / inject_Z (count_in df s member + count_in df s non_member))%Q
         /\ (0 <= q)%Q /\ (q <= 1)%Q) /\
    fold_right Z.add 0 (m_member out)
    = Z.of_nat (length (filter (fun r => status_eqb (membership_status r)
                                                    member) df)).
Proof.
  intros Hm Hn. exists (expected_frame df).
  split; [apply market_penetration_ok; assumption|].
  unfold expected_frame. cbn [m_state m_member m_non_member m_total
                              market_penetration_score].
  split; [apply regions_NoDup|]. split; [apply regions_In|]. split.
  - intros k s Hk.
    destruct (@true_divide_ratio (count_in df s member)
                                 (count_in df s non_member))
      as (q & Hq & Heq & H0 & H1 & _).
    { apply count_in_nonneg. }
    { apply count_in_nonneg. }
    { apply count_in_region, regions_In. eapply nth_error_In; eassumption. }
    exists q.
    rewrite !(map_nth_error _ _ _ Hk), Hq. auto 10.
  - apply sum_over_regions; [apply regions_NoDup|].
    intros r Hr. apply regions_In. exists r. auto.
Qed.

(** C7, as stated, fails on a table without customers: its one region
    holds non-customers only, yet reading the column [member] raises and
    the region gets no ratio. *)
Lemma market_penetration_only_non_members :
  (exists r, In r only_non_members /\ state r = "CA"%string) /\
  (forall r, In r only_non_members -> membership_status r = non_member) /\
  market_penetration only_non_members = Err KeyError /\
  ~ exists out, market_penetration only_non_members = Ok out.
Proof.
  split; [|split; [|split]].
  - exists (mkInstitution 1 "CA" non_member). split; [left|]; reflexivity.
  - intros r Hr. apply in_map_iff in Hr as (u & <- & _). reflexivity.
  - vm_compute. reflexivity.
  - intros (out & H). vm_compute in H. discriminate.
Qed.

(** C7: on a table where both statuses occur, every state of the table
    has a row whose total is at least 1, so its ratio is a number; the
    ratio is 0 when the state holds non-customers only and 1 when it holds
    customers only. *)
Theorem market_penetration_no_zero_division (df : list institution) :
  (exists r, In r df /\ membership_status r = member) ->
  (exists r, In r df /\ membership_status r = non_member) ->
  exists out,
    market_penetration df = Ok out /\
    Forall (fun t => 1 <= t) (m_total out) /\
    Forall (fun q => q <> None) (market_penetration_score out) /\
    forall s, (exists r, In r df /\ state r = s) ->
      exists k t q,
        nth_error (m_state out) k = Some s /\
        nth_error (m_total out) k = Some t /\ 1 <= t /\
        nth_error (market_penetration_score out) k = Some (Some q) /\
        ((forall r, In r df -> state r = s ->
                    membership_status r = non_member) -> (q == 0)%Q) /\
        ((forall r, In r df -> state r = s ->
                    membership_status r = member) -> (q == 1)%Q).
Proof.
  intros Hm Hn. exists (expected_frame df).
  split; [apply market_penetration_ok; assumption|].
  unfold expected_frame. cbn [m_state m_member m_non_member m_total
                              market_penetration_score].
  assert (Hdiv : forall s, In s (regions df) ->
            exists q, true_divide (count_in df s member)
                        (count_in df s member + count_in df s non_member)
                      = Some q /\
                      (count_in df s member = 0 -> (q == 0)%Q) /\
                      (count_in df s non_member = 0 -> (q == 1)%Q)).
  { intros s Hs.
    destruct (@true_divide_ratio (count_in df s member)
                                 (count_in df s non_member))
      as (q & Hq & _ & _ & _ & H0 & H1).
    { apply count_in_nonneg. }
    { apply count_in_nonneg. }
    { apply count_in_region, regions_In, Hs. }
    exists q. auto. }
  split; [|split].
  - apply Forall_forall. intros t Ht.
    apply in_map_iff in Ht as (s & <- & Hs).
    apply count_in_region, regions_In, Hs.
  - apply Forall_forall. intros q Hq.
    apply in_map_iff in Hq as (s & <- & Hs).
    destruct (Hdiv s Hs) as (q & -> & _). discriminate.
  - intros s Hs. apply regions_In in Hs as Hin.
    apply In_nth_error in Hin as (k & Hk).
    destruct (Hdiv s (proj2 (regions_In df s) Hs)) as (q & Hq & H0 & H1).
    exists k, (count_in df s member + count_in df s non_member), q.
    rewrite !(map_nth_error _ _ _ Hk), Hq.
    split; [exact Hk|]. split; [reflexivity|].
    split; [apply count_in_region, Hs|]. split; [reflexivity|]. split.
    + intros Hall. apply H0, count_in_none.
      intros r Hr Hst. rewrite (Hall r Hr Hst). discriminate.
    + intros Hall. apply H1, count_in_none.
      intros r Hr Hst. rewrite (Hall r Hr Hst). discriminate.
Qed.

Lemma scenario_has_member :
  exists r, In r scenario_table /\ membership_status r = member.
Proof.
  exists (mkInstitution 1 "NY" member). split; [left|]; reflexivity.
Defined.

Lemma scenario_has_non_member :
  exists r, In r scenario_table /\ membership_status r = non_member.
Proof.
  exists (mkInstitution 11 "CA" non_member).
  split; [|reflexivity]. do 10 right. left. reflexivity.
Defined.

Lemma market_penetration_scores_scenario :
  exists out,
    market_penetration scenario_table = Ok out /\
    NoDup (m_state out) /\
    (forall s, In s (m_state out) <->
               exists r, In r scenario_table /\ state r = s) /\
    (forall k s, nth_error (m_state out) k = Some s ->
       exists q,
         nth_error (m_member out) k = Some (count_in scenario_table s member) /\
         nth_error (m_non_member out) k
         = Some (count_in scenario_table s non_member) /\
         nth_error (m_total out) k
         = Some (count_in scenario_table s member
                 + count_in scenario_table s non_member) /\
         nth_error (market_penetration_score out) k = Some (Some q) /\
         q = (inject_Z (count_in scenario_table s member)
              / inject_Z (count_in scenario_table s member
                          + count_in scenario_table s non_member))%Q
         /\ (0 <= q)%Q /\ (q <= 1)%Q) /\
    fold_right Z.add 0 (m_member out)
    = Z.of_nat (length (filter (fun r => status_eqb (membership_status r)
                                                    member) scenario_table)).
Proof.
  apply (@market_penetration_scores scenario_table).
  - exact scenario_has_member.
  - exact scenario_has_non_member.
Defined.

Lemma market_penetration_no_zero_division_scenario :
  exists out,
    market_penetration scenario_table = Ok out /\
    Forall (fun t => 1 <= t) (m_total out) /\
    Forall (fun q => q <> None) (market_penetration_score out) /\
    forall s, (exists r, In r scenario_table /\ state r = s) ->
      exists k t q,
        nth_error (m_state out) k = Some s /\
        nth_error (m_total out) k = Some t /\ 1 <= t /\
        nth_error (market_penetration_score out) k = Some (Some q) /\
        ((forall r, In r scenario_table -> state r = s ->
                    membership_status r = non_member) -> (q == 0)%Q) /\
        ((forall r, In r scenario_table -> state r = s ->
                    membership_status r = member) -> (q == 1)%Q).
Proof.
  apply (@market_penetration_no_zero_division scenario_table).
  - exact scenario_has_member.
  - exact scenario_has_non_member.
Defined.

(** The scenario's values: penetration 0 for the state without customers,
    3/10 for the other. *)
Example market_penetration_scenario_values :
  market_penetration scenario_table
  = Ok (mkMarket ["CA"%string; "NY"%string] [0; 3] [5; 7] [5; 10]
          [Some (inject_Z 0 / inject_Z 5)%Q;
           Some (inject_Z 3 / inject_Z 10)%Q]).
Proof. vm_compute. reflexivity. Qed.

End Approach2Facts.

Module Approach3Facts.
Import Np Approach3.
Local Open Scope R_scope.

Lemma sum_squares_nonneg (v : vector) : 0 <= sum (map (fun x => x * x) v).
Proof.
  induction v as [|x v IH]; simpl; [lra|]. nra.
Qed.

Lemma norm_pow2 (v : vector) : norm v ^ 2 = sum (map (fun x => x * x) v).
Proof.
  unfold norm. simpl. rewrite Rmult_1_r.
  apply sqrt_sqrt, sum_squares_nonneg.
Qed.

Lemma expand_sq_diff (x y : vector) :
  length x = length y ->
  sum (map (fun a => a * a) x) - 2 * dot x y + sum (map (fun a => a * a) y)
  = sq_diff_sum x y.
Proof.
  unfold dot, sq_diff_sum, zipWith. revert y.
  induction x as [|a x IH]; intros [|b y] Hlen; simpl in *; try discriminate.
  - lra.
  - injection Hlen as Hlen. specialize (IH y Hlen). lra.
Qed.

Lemma dot_T_ones_r (X Y : matrix) :
  dot_T (sq_norms X) (ones (length Y))
  = map (fun x => map (fun _ => dot [norm x ^ 2] [1]) Y) X.
Proof.
  unfold dot_T, sq_norms, ones. rewrite map_map.
  apply map_ext; intros x. apply map_repeat_length.
Qed.

Lemma dot_T_ones_l (X Y : matrix) :
  dot_T (ones (length X)) (sq_norms Y)
  = map (fun _ => map (fun y => dot [1] [norm y ^ 2]) Y) X.
Proof.
  unfold dot_T, sq_norms, ones. rewrite map_repeat_length.
  apply map_ext; intros x. apply map_map.
Qed.

Lemma euclidean_unfold (X Y : matrix) :
  euclidean X Y =
  map (fun x => map (fun y =>
        dot [norm x ^ 2] [1] - 2 * dot x y + dot [1] [norm y ^ 2]) Y) X.
Proof.
  unfold euclidean. rewrite dot_T_ones_r, dot_T_ones_l.
  unfold madd, msub, mscale, dot_T.
  rewrite map_map, !zipWith_map.
  apply map_ext; intros x.
  rewrite map_map, !zipWith_map. reflexivity.
Qed.

Lemma euclidean_shape (X Y : matrix) :
  length (euclidean X Y) = length X /\
  Forall (fun r => length r = length Y) (euclidean X Y).
Proof.
  rewrite euclidean_unfold. split; [apply length_map|].
  apply Forall_forall. intros r Hr.
  apply in_map_iff in Hr as (x & <- & _). apply length_map.
Qed.

Lemma euclidean_eq_brute_force (p : nat) (X Y : matrix) :
  Forall (fun x => length x = p) X ->
  Forall (fun y => length y = p) Y ->
  euclidean X Y = brute_force X Y.
Proof.
  intros HX HY. rewrite euclidean_unfold. unfold brute_force.
  apply map_ext_in; intros x Hx. apply map_ext_in; intros y Hy.
  rewrite Forall_forall in HX, HY.
  rewrite <- expand_sq_diff by (rewrite (HX x Hx), (HY y Hy); reflexivity).
  rewrite <- !norm_pow2. unfold dot, zipWith; simpl. lra.
Qed.

Lemma entry_brute_force (X Y : matrix) (i j : nat) (x y : vector) :
  nth_error X i = Some x -> nth_error Y j = Some y ->
  entry (brute_force X Y) i j = Some (sq_diff_sum x y).
Proof.
  intros Hx Hy. unfold entry, brute_force.
  rewrite (map_nth_error _ _ _ Hx). apply (map_nth_error _ _ _ Hy).
Qed.

Lemma entry_brute_force_inv (X Y : matrix) (i j : nat) (d : R) :
  entry (brute_force X Y) i j = Some d ->
  exists x y, nth_error X i = Some x /\ nth_error Y j = Some y
              /\ d = sq_diff_sum x y.
Proof.
  unfold entry, brute_force. rewrite nth_error_map.
  destruct (nth_error X i) as [x|]; simpl; [|discriminate].
  rewrite nth_error_map.
  destruct (nth_error Y j) as [y|]; simpl; [|discriminate].
  intros H. injection H as <-. exists x, y. auto.
Qed.


Lemma sq_diff_sum_nonneg (x y : vector) : 0 <= sq_diff_sum x y.
Proof.
  unfold sq_diff_sum, zipWith.
  induction (combine x y) as [|[a b] l IH]; simpl in *; [lra|].
  pose proof (Rle_0_sqr (a - b)) as Hsq. unfold Rsqr in Hsq. lra.
Qed.

Lemma sq_diff_sum_zero (x y : vector) :
  length x = length y -> (sq_diff_sum x y = 0 <-> x = y).
Proof.
  revert y. induction x as [|a x IH]; intros [|b y] Hlen;
    simpl in Hlen; try discriminate.
  - unfold sq_diff_sum; simpl. tauto.
  - injection Hlen as Hlen. specialize (IH y Hlen).
    pose proof (sq_diff_sum_nonneg x y) as Hnn.
    change (sq_diff_sum (a :: x) (b :: y))
      with ((a - b) * (a - b) + sq_diff_sum x y).
    split.
    + intros H0.
      pose proof (Rle_0_sqr (a - b)) as Hsq. unfold Rsqr in Hsq.
      assert (Hab : (a - b) * (a - b) = 0) by lra.
      apply Rmult_integral in Hab.
      assert (a = b) by (destruct Hab; lra). subst b.
      f_equal. apply IH. lra.
    + intros [= -> Hxy]. apply IH in Hxy. rewrite Hxy. lra.
Qed.

(** C4: every entry of the distance matrix is non-negative, and it is zero
    exactly when the customer row and the non-customer row it compares are
    the same feature vector. *)
Theorem euclidean_nonneg_zero_iff
    (p : nat) (X Y : matrix) (i j : nat) (d : R) :
  Forall (fun x => length x = p) X ->
  Forall (fun y => length y = p) Y ->
  entry (euclidean X Y) i j = Some d ->
  0 <= d /\
  exists x y, nth_error X i = Some x /\ nth_error Y j = Some y /\
              (d = 0 <-> x = y).
Proof.
  intros HX HY Hd.
  rewrite (euclidean_eq_brute_force HX HY) in Hd.
  apply entry_brute_force_inv in Hd as (x & y & Hx & Hy & ->).
  split; [apply sq_diff_sum_nonneg|].
  exists x, y. split; [exact Hx|]. split; [exact Hy|].
  apply sq_diff_sum_zero.
  rewrite Forall_forall in HX, HY.
  rewrite (HX x (nth_error_In _ _ Hx)), (HY y (nth_error_In _ _ Hy)).
  reflexivity.
Qed.

(** *** Scaling *)

Lemma nth_error_norm_axis0 (p : nat) (A : matrix) (k : nat) :
  (k < p)%nat ->
  nth_error (norm_axis0 p A) k = Some (norm (map (fun r => nth k r 0) A)).
Proof.
  intros Hk. unfold norm_axis0.
  rewrite nth_error_map, nth_error_seq.
  destruct (Nat.ltb_spec k p); [reflexivity | lia].
Qed.


Lemma norm_axis0_column_norm (p : nat) (df : frame row) (k : nat) :
  (k < p)%nat ->
  nth_error (norm_axis0 p (feature_array df)) k = Some (column_norm df k).
Proof.
  intros Hk. rewrite (nth_error_norm_axis0 _ Hk).
  unfold column_norm, norm, feature_array. rewrite !map_map. reflexivity.
Qed.


(** *** Matching *)

Lemma column_spec (m : nat) (M : matrix) (j : nat) :
  Forall (fun r => length r = m) M -> (j < m)%nat ->
  exists vec, column M j = Ok vec /\ length vec = length M /\
              forall i, nth_error vec i = entry M i j.
Proof.
  intros HM Hj. unfold column.
  induction HM as [|r M Hr HM IH]; simpl.
  - exists []. repeat split. intros [|i]; reflexivity.
  - destruct IH as (vec & Hvec & Hlen & Hnth).
    destruct (nth_error r j) as [x|] eqn:Hx.
    + exists (x :: vec). rewrite Hvec. simpl. repeat split.
      * congruence.
      * intros [|i]; simpl; [unfold entry; simpl; congruence | apply Hnth].
    + apply nth_error_None in Hx. lia.
Qed.

Lemma fold_left_Rmin_le (v : vector) (x : R) :
  fold_left Rmin v x <= x /\ Forall (fun y => fold_left Rmin v x <= y) v.
Proof.
  revert x. induction v as [|y v IH]; intros x; simpl.
  - split; [lra | constructor].
  - destruct (IH (Rmin x y)) as [H1 H2].
    pose proof (Rmin_l x y). pose proof (Rmin_r x y).
    split; [lra|]. constructor; [lra | exact H2].
Qed.

Lemma fold_left_Rmin_In (v : vector) (x : R) : In (fold_left Rmin v x) (x :: v).
Proof.
  revert x. induction v as [|y v IH]; intros x; simpl.
  - left; reflexivity.
  - destruct (IH (Rmin x y)) as [H|H]; [|right; right; exact H].
    rewrite <- H. unfold Rmin. destruct (Rle_dec x y); auto.
Qed.

Lemma np_min_spec (v : vector) :
  v <> [] ->
  exists lo, np_min v = Ok lo /\ In lo v /\ Forall (fun y => lo <= y) v.
Proof.
  destruct v as [|x v]; [congruence|]. intros _.
  exists (fold_left Rmin v x). split; [reflexivity|].
  split; [apply fold_left_Rmin_In|].
  destruct (fold_left_Rmin_le v x). constructor; assumption.
Qed.

Lemma argwhere_from_first (k : nat) (v : vector) (c : R) :
  In c v ->
  exists i rest, argwhere_from k v c = (k + i)%nat :: rest /\
                 nth_error v i = Some c /\
                 forall i' x, (i' < i)%nat -> nth_error v i' = Some x -> x <> c.
Proof.
  revert k. induction v as [|y v IH]; intros k Hin; [destruct Hin|].
  simpl. destruct (Req_dec_T y c) as [Heq|Hne].
  - exists 0%nat, (argwhere_from (S k) v c). rewrite Nat.add_0_r.
    repeat split; [simpl; congruence | lia].
  - destruct Hin as [Hin|Hin]; [congruence|].
    destruct (IH (S k) Hin) as (i & rest & Harg & Hnth & Hfirst).
    exists (S i), rest. rewrite Harg. repeat split.
    + f_equal. lia.
    + exact Hnth.
    + intros [|i'] x Hlt Hx; simpl in Hx.
      * congruence.
      * apply (Hfirst i'); [lia | exact Hx].
Qed.

Lemma match_column_spec (m : nat) (M : matrix) (j : nat) :
  M <> [] -> Forall (fun r => length r = m) M -> (j < m)%nat ->
  exists i d, match_column M j = Ok (i, d) /\ first_argmin M j i d.
Proof.
  intros Hne HM Hj. unfold match_column.
  destruct (column_spec HM Hj) as (vec & -> & Hlen & Hnth). simpl.
  assert (Hvec : vec <> []).
  { destruct vec; [|discriminate]. destruct M; [congruence | discriminate]. }
  destruct (np_min_spec Hvec) as (lo & -> & Hin & Hle). simpl.
  destruct (@argwhere_from_first 0 vec lo Hin) as (i & rest & Harg & Hi & Hfirst).
  unfold argwhere. rewrite Harg. simpl.
  exists i, lo. split; [reflexivity|]. split.
  - rewrite <- Hnth. exact Hi.
  - intros i' d' Hd'. rewrite <- Hnth in Hd'.
    rewrite Forall_forall in Hle. split.
    + apply Hle. eapply nth_error_In; eassumption.
    + intros ->. destruct (Nat.le_gt_cases i i') as [|Hlt]; [assumption|].
      exfalso. exact (Hfirst i' lo Hlt Hd' eq_refl).
Qed.

Lemma match_columns_found (m : nat) (M : matrix) :
  M <> [] -> Forall (fun r => length r = m) M ->
  exists found,
    mapM (match_column M) (seq 0 m) = Ok found /\
    Forall2 (fun j id => first_argmin M j (fst id) (snd id)) (seq 0 m) found.
Proof.
  intros Hne HM. apply mapM_Forall2.
  intros j Hj. apply in_seq in Hj.
  destruct (@match_column_spec m M j Hne HM) as (i & d & Hid & Hspec);
    [lia|].
  exists (i, d). split; assumption.
Qed.

Lemma found_nth (m : nat) (M : matrix) (found : list (nat * R)) :
  Forall2 (fun j id => first_argmin M j (fst id) (snd id)) (seq 0 m) found ->
  length found = m /\
  forall j, (j < m)%nat ->
    exists i d, nth_error found j = Some (i, d) /\ first_argmin M j i d.
Proof.
  intros HF. split.
  - apply Forall2_length in HF. rewrite length_seq in HF. congruence.
  - intros j Hj.
    destruct (Forall2_nth_error HF j (a:=j)) as ([i d] & Hnth & Hspec).
    { rewrite nth_error_seq. destruct (Nat.ltb_spec j m); [reflexivity|lia]. }
    exists i, d. auto.
Qed.

(** *** Attaching the columns *)

Lemma attach_spec (members_df non_members_df : frame row)
    (match_index : list nat) (matched_euclidean : list R) (picked : frame row) :
  length matched_euclidean = length non_members_df ->
  iloc members_df match_index = Ok picked ->
  exists attached,
    attach members_df non_members_df match_index matched_euclidean
    = Ok attached /\
    length attached = length non_members_df /\
    forall j r d c,
      nth_error non_members_df j = Some (j, r) ->
      nth_error matched_euclidean j = Some d ->
      nth_error picked j = Some c ->
      nth_error attached j
      = Some (j, mkMatched r d (Some (UnitID (snd c)))).
Proof.
  intros Hlen Hp. unfold attach, assign_list.
  rewrite Hlen, Nat.eqb_refl, Hp. simpl.
  eexists. split; [reflexivity|]. split.
  - unfold assign_series. rewrite length_map, length_zipWith, Hlen.
    apply Nat.min_id.
  - intros j r d [l c] Hr Hd Hc. unfold assign_series.
    rewrite nth_error_map.
    rewrite (nth_error_zipWith (fun r v => (fst r, (snd r, v))) _ _ _ Hr Hd).
    simpl. f_equal. f_equal. f_equal.
    apply (@loc_reset_index _ _ j l).
    rewrite nth_error_map, Hc. reflexivity.
Qed.

(** *** The list of potential members *)



Lemma euclidean_nonneg_scenario :
  exists d, entry (euclidean scenario_X scenario_Y) 0 0 = Some d /\
    0 <= d /\
    exists x y, nth_error scenario_X 0 = Some x /\
                nth_error scenario_Y 0 = Some y /\ (d = 0 <-> x = y).
Proof.
  eexists. split; [reflexivity|].
  apply (@euclidean_nonneg_zero_iff 2 scenario_X scenario_Y 0 0).
  - repeat constructor.
  - repeat constructor.
  - reflexivity.
Defined.


(** One customer with feature 2 and one non-customer with feature 3: the
    non-customer's feature becomes 3/2, its value over the customer norm 2,
    and not 1, its value over its own norm. *)
Example non_member_scaled_by_customer_norm :
  feature_array (snd (scale 1 [(0%nat, mkRow 1 [2])] [(0%nat, mkRow 2 [3])]))
  = [[3 / 2]]
  /\ 3 / 2 <> 3 / norm [3].
Proof.
  assert (Hsq : forall x, 0 <= x -> sqrt (x * x + 0) = x).
  { intros x Hx. rewrite Rplus_0_r. apply sqrt_square. exact Hx. }
  split.
  - unfold scale, feature_array, div_features, norm_axis0, norm, zipWith, sum.
    cbn [map seq nth combine fst snd features fold_right].
    rewrite Hsq by lra. reflexivity.
  - unfold norm, sum. cbn [map fold_right]. rewrite Hsq by lra. lra.
Qed.

(** Decide the comparisons of concrete reals a run of the loop makes. *)
Ltac settle_comparisons :=
  repeat match goal with
         | |- context [Rle_dec ?a ?b] => destruct (Rle_dec a b); try lra
         | |- context [Req_dec_T ?a ?b] => destruct (Req_dec_T a b); try lra
         end.

(** The scenario's expected matches: C is nearest to A and D to B, both at
    squared distance 0.02. *)
Example scenario_nearest :
  exists d0 d1,
    matching (euclidean scenario_X scenario_Y) 2 = Ok ([0; 1]%nat, [d0; d1])
    /\ d0 = 2 / 100 /\ d1 = 2 / 100.
Proof.
  rewrite (@euclidean_eq_brute_force 2) by repeat constructor.
  unfold matching, match_column, column, np_min, argwhere, brute_force,
    scenario_X, scenario_Y, sq_diff_sum, zipWith, sum.
  cbn [mapM seq map combine nth_error bind fold_right fold_left fst snd
       argwhere_from].
  unfold Rmin.
  settle_comparisons.
  cbn [mapM seq map combine nth_error bind fold_right fold_left fst snd
       argwhere_from].
  do 2 eexists. split; [reflexivity|]. split; lra.
Qed.

(** Two customers at the same distance: the first one is recorded. *)
Example tie_takes_first_row :
  matching [[1]; [1]] 1 = Ok ([0%nat], [1]).
Proof.
  unfold matching, match_column, column, np_min, argwhere.
  cbn [mapM seq map nth_error bind fold_left argwhere_from].
  unfold Rmin.
  settle_comparisons.
  reflexivity.
Qed.

(** Without customers the first round of the loop raises. *)
Example no_customer_raises : matching [] 1 = Err ValueError.
Proof. reflexivity. Qed.

End Approach3Facts.

(** ** Approach 3 on [float64] *)

(** *** The order of the numbers of the binary64 format *)

Module FloatOrder.
Import Floats.

Lemma SFleb_refl (f : spec_float) : SFeqb f f = true -> SFleb f f = true.
Proof.
  unfold SFeqb, SFleb. destruct (SFcompare f f) as [[| |]|]; congruence.
Qed.

Ltac compare_cases :=
  repeat match goal with
         | |- context [Pos.compare_cont Eq ?a ?b] =>
             change (Pos.compare_cont Eq a b) with (Pos.compare a b)
         end;
  repeat match goal with
         | |- context [(?a ?= ?b)%Z] => destruct (Z.compare_spec a b)
         end;
  repeat match goal with
         | |- context [(?a ?= ?b)%positive] => destruct (Pos.compare_spec a b)
         end;
  cbn; try congruence; try (intros; exfalso; lia).

Lemma SFleb_total (f g : spec_float) :
  SFeqb f f = true -> SFeqb g g = true ->
  SFleb f g = false -> SFleb g f = true.
Proof.
  unfold SFeqb, SFleb.
  destruct f as [sf|sf| |sf mf ef], g as [sg|sg| |sg mg eg];
    try destruct sf; try destruct sg; cbn; try congruence.
  all: intros _ _; compare_cases.
Qed.

Lemma SFleb_trans (f g h : spec_float) :
  SFleb f g = true -> SFleb g h = true -> SFleb f h = true.
Proof.
  unfold SFleb.
  destruct f as [sf|sf| |sf mf ef], g as [sg|sg| |sg mg eg],
           h as [sh|sh| |sh mh eh];
    try destruct sf; try destruct sg; try destruct sh; cbn;
    try congruence.
  all: compare_cases.
Qed.

Lemma SFeqb_nan_r (f g : spec_float) : SFeqb g g = false -> SFeqb f g = false.
Proof.
  unfold SFeqb.
  destruct f as [sf|sf| |sf mf ef], g as [sg|sg| |sg mg eg];
    try destruct sf; try destruct sg; cbn; try congruence.
  all: compare_cases.
  all: rewrite ?Z.compare_refl, ?Pos.compare_refl; cbn; congruence.
Qed.

Lemma SFleb_nan_r (f g : spec_float) : SFeqb g g = false -> SFleb f g = false.
Proof.
  unfold SFeqb, SFleb.
  destruct f as [sf|sf| |sf mf ef], g as [sg|sg| |sg mg eg];
    try destruct sf; try destruct sg; cbn; try congruence.
  all: compare_cases.
  all: rewrite ?Z.compare_refl, ?Pos.compare_refl; cbn; congruence.
Qed.

Local Open Scope float_scope.

Lemma number_eqb (x : float) : PrimFloat.is_nan x = false -> (x =? x) = true.
Proof. unfold PrimFloat.is_nan. apply negb_false_iff. Qed.

Lemma nan_eqb (x : float) : PrimFloat.is_nan x = true -> (x =? x) = false.
Proof. unfold PrimFloat.is_nan. apply negb_true_iff. Qed.

Lemma float_leb_refl (x : float) :
  PrimFloat.is_nan x = false -> (x <=? x) = true.
Proof.
  intros Hx. apply number_eqb in Hx. rewrite eqb_spec in Hx.
  rewrite leb_spec. apply SFleb_refl, Hx.
Qed.

Lemma float_leb_total (x y : float) :
  PrimFloat.is_nan x = false -> PrimFloat.is_nan y = false ->
  (x <=? y) = false -> (y <=? x) = true.
Proof.
  intros Hx Hy. apply number_eqb in Hx, Hy. rewrite eqb_spec in Hx, Hy.
  rewrite !leb_spec. apply SFleb_total; assumption.
Qed.

Lemma float_leb_trans (x y z : float) :
  (x <=? y) = true -> (y <=? z) = true -> (x <=? z) = true.
Proof. rewrite !leb_spec. apply SFleb_trans. Qed.

(** No number is equal to [NaN], and none is below it. *)
Lemma eqb_nan_r (x c : float) : PrimFloat.is_nan c = true -> (x =? c) = false.
Proof.
  intros Hc. apply nan_eqb in Hc. rewrite eqb_spec in Hc.
  rewrite eqb_spec. apply SFeqb_nan_r, Hc.
Qed.

Lemma leb_nan_r (x c : float) : PrimFloat.is_nan c = true -> (x <=? c) = false.
Proof.
  intros Hc. apply nan_eqb in Hc. rewrite eqb_spec in Hc.
  rewrite leb_spec. apply SFleb_nan_r, Hc.
Qed.

End FloatOrder.

Module Approach3F64Facts.
Import Floats Np64 Approach3F64 FloatOrder.
Local Open Scope float_scope.

(** *** The distance matrix *)

Lemma euclidean_unfold_f64 (X Y : fmatrix) :
  euclidean X Y =
  map (fun x => map (fun y =>
        dot [norm x * norm x] [1] - 2 * dot x y + dot [1] [norm y * norm y])
                    Y) X.
Proof.
  unfold euclidean, madd, msub, mscale, dot_T, sq_norms, ones. cbv zeta.
  rewrite !map_map.
  rewrite (map_ext (fun x => map (fun b => dot [norm x * norm x] b)
                                 (repeat [1] (length Y)))
                   (fun x => map (fun _ => dot [norm x * norm x] [1]) Y))
    by (intros x; apply map_repeat_length).
  rewrite (map_repeat_length
             (fun a => map (fun b => dot a b)
                           (map (fun x => [norm x * norm x]) Y)) [1] X).
  rewrite !zipWith_map.
  apply map_ext; intros x.
  rewrite !map_map, !zipWith_map. reflexivity.
Qed.

Lemma euclidean_shape_f64 (X Y : fmatrix) :
  length (euclidean X Y) = length X /\
  Forall (fun r => length r = length Y) (euclidean X Y).
Proof.
  rewrite euclidean_unfold_f64. split; [apply length_map|].
  apply Forall_forall. intros r Hr.
  apply in_map_iff in Hr as (x & <- & _). apply length_map.
Qed.

(** *** Matching *)

Lemma column_spec_f64 (m : nat) (M : fmatrix) (j : nat) :
  Forall (fun r => length r = m) M -> (j < m)%nat ->
  exists vec, column M j = Ok vec /\ length vec = length M /\
              forall i, nth_error vec i = entry M i j.
Proof.
  intros HM Hj. unfold column.
  induction HM as [|r M Hr HM IH]; simpl.
  - exists []. repeat split. intros [|i]; reflexivity.
  - destruct IH as (vec & Hvec & Hlen & Hnth).
    destruct (nth_error r j) as [x|] eqn:Hx.
    + exists (x :: vec). rewrite Hvec. simpl. repeat split.
      * congruence.
      * intros [|i]; simpl; [unfold entry; simpl; congruence | apply Hnth].
    + apply nth_error_None in Hx. lia.
Qed.

Lemma minimum_numbers (x y : float) :
  PrimFloat.is_nan x = false ->
  minimum x y = if x <=? y then x else y.
Proof. intros Hx. unfold minimum. rewrite Hx. reflexivity. Qed.

(** The reduction of [np.min] over numbers ends on one of them that none
    of them is less than. *)
Lemma fold_minimum (v : fvector) (x : float) :
  PrimFloat.is_nan x = false ->
  Forall (fun y => PrimFloat.is_nan y = false) v ->
  exists lo, fold_left minimum v x = lo /\
    PrimFloat.is_nan lo = false /\ In lo (x :: v) /\
    Forall (fun y => (lo <=? y) = true) (x :: v).
Proof.
  intros Hx Hv. revert x Hx.
  induction Hv as [|y v Hy Hv IH]; intros x Hx; cbn [fold_left].
  - exists x. split; [reflexivity|]. split; [exact Hx|].
    split; [left; reflexivity|].
    constructor; [apply float_leb_refl, Hx | constructor].
  - rewrite (@minimum_numbers x y Hx).
    destruct (x <=? y) eqn:Hxy.
    + destruct (IH x Hx) as (lo & Hlo & Hn & Hin & Hle).
      exists lo. split; [exact Hlo|]. split; [exact Hn|]. split.
      * destruct Hin as [<-|Hin]; [left; reflexivity | right; right; exact Hin].
      * inversion Hle as [|? ? Hdx Hdv]; subst.
        constructor; [exact Hdx|].
        constructor; [exact (@float_leb_trans _ _ _ Hdx Hxy) | exact Hdv].
    + destruct (IH y Hy) as (lo & Hlo & Hn & Hin & Hle).
      exists lo. split; [exact Hlo|]. split; [exact Hn|].
      split; [right; exact Hin|].
      inversion Hle as [|? ? Hdy Hdv]; subst.
      constructor; [|constructor; assumption].
      exact (@float_leb_trans _ _ _ Hdy (@float_leb_total _ _ Hx Hy Hxy)).
Qed.

Lemma np_min_spec_f64 (v : fvector) :
  v <> [] -> Forall (fun y => PrimFloat.is_nan y = false) v ->
  exists lo, np_min v = Ok lo /\ PrimFloat.is_nan lo = false /\ In lo v /\
             Forall (fun y => (lo <=? y) = true) v.
Proof.
  destruct v as [|x v]; [congruence|]. intros _ Hv.
  inversion Hv as [|? ? Hx Hv']; subst.
  destruct (@fold_minimum _ _ Hx Hv') as (lo & Hlo & Hn & Hin & Hle).
  exists lo. cbn [np_min]. rewrite Hlo. auto.
Qed.

Lemma argwhere_from_first_f64 (k : nat) (v : fvector) (c : float) :
  (exists x, In x v /\ (x =? c) = true) ->
  exists i rest x,
    argwhere_from k v c = (k + i)%nat :: rest /\
    nth_error v i = Some x /\ (x =? c) = true /\
    forall i' x', (i' < i)%nat -> nth_error v i' = Some x' ->
                  (x' =? c) = false.
Proof.
  revert k. induction v as [|y v IH]; intros k (x & Hin & Hx);
    [destruct Hin|].
  cbn [argwhere_from]. destruct (y =? c) eqn:Hy.
  - exists 0%nat, (argwhere_from (S k) v c), y. rewrite Nat.add_0_r.
    split; [reflexivity|]. split; [reflexivity|]. split; [exact Hy|].
    intros i' x' Hlt. lia.
  - destruct Hin as [->|Hin]; [congruence|].
    destruct (IH (S k)) as (i & rest & x0 & Harg & Hnth & Hx0 & Hfirst);
      [exists x; auto|].
    exists (S i), rest, x0. rewrite Harg. split; [f_equal; lia|].
    split; [exact Hnth|]. split; [exact Hx0|].
    intros [|i'] x' Hlt Hx'; cbn [nth_error] in Hx'.
    + congruence.
    + apply (Hfirst i'); [lia | exact Hx'].
Qed.

Lemma no_nan_column (M : fmatrix) (j : nat) (vec : fvector) :
  no_nan M -> (forall i, nth_error vec i = entry M i j) ->
  Forall (fun y => PrimFloat.is_nan y = false) vec.
Proof.
  intros HM Hnth. apply Forall_forall. intros y Hy.
  apply In_nth_error in Hy as (i & Hi). rewrite Hnth in Hi.
  unfold entry in Hi. destruct (nth_error M i) as [r|] eqn:Hr; [|discriminate].
  unfold no_nan in HM. rewrite Forall_forall in HM.
  specialize (HM r (nth_error_In _ _ Hr)). rewrite Forall_forall in HM.
  exact (HM y (nth_error_In _ _ Hi)).
Qed.

Lemma no_nan_entry (M : fmatrix) (i j : nat) (d : float) :
  no_nan M -> entry M i j = Some d -> PrimFloat.is_nan d = false.
Proof.
  intros HM Hd. unfold entry in Hd.
  destruct (nth_error M i) as [r|] eqn:Hr; [|discriminate].
  unfold no_nan in HM. rewrite Forall_forall in HM.
  specialize (HM r (nth_error_In _ _ Hr)). rewrite Forall_forall in HM.
  exact (HM d (nth_error_In _ _ Hd)).
Qed.

Lemma match_column_spec_f64 (m : nat) (M : fmatrix) (j : nat) :
  M <> [] -> Forall (fun r => length r = m) M -> no_nan M -> (j < m)%nat ->
  exists i d, match_column M j = Ok (i, d) /\ first_argmin M j i d.
Proof.
  intros Hne HM Hnan Hj. unfold match_column.
  destruct (@column_spec_f64 m M j HM Hj) as (vec & -> & Hlen & Hnth). cbn [bind].
  assert (Hvec : vec <> []).
  { destruct vec; [|discriminate]. destruct M; [congruence | discriminate]. }
  pose proof (@no_nan_column M j vec Hnan Hnth) as Hnum.
  destruct (@np_min_spec_f64 vec Hvec Hnum) as (lo & -> & Hlo & Hin & Hle).
  cbn [bind].
  destruct (@argwhere_from_first_f64 0 vec lo)
    as (i & rest & x & Harg & Hi & Hx & Hfirst).
  { exists lo. split; [exact Hin | apply number_eqb, Hlo]. }
  unfold argwhere. rewrite Harg. cbn [Nat.add].
  exists i, lo. split; [reflexivity|]. split; [|split].
  - exists x. rewrite <- Hnth. auto.
  - apply In_nth_error in Hin as (i0 & Hi0). exists i0.
    rewrite <- Hnth. exact Hi0.
  - intros i' x' Hx'. rewrite <- Hnth in Hx'.
    rewrite Forall_forall in Hle. split.
    + apply Hle. eapply nth_error_In; eassumption.
    + intros Heq. destruct (Nat.le_gt_cases i i') as [|Hlt]; [assumption|].
      rewrite (Hfirst i' x' Hlt Hx') in Heq. discriminate.
Qed.

Lemma match_columns_found_f64 (m : nat) (M : fmatrix) :
  M <> [] -> Forall (fun r => length r = m) M -> no_nan M ->
  exists found,
    mapM (match_column M) (seq 0 m) = Ok found /\
    Forall2 (fun j id => first_argmin M j (fst id) (snd id)) (seq 0 m) found.
Proof.
  intros Hne HM Hnan. apply mapM_Forall2.
  intros j Hj. apply in_seq in Hj.
  destruct (@match_column_spec_f64 m M j Hne HM Hnan) as (i & d & Hid & Hspec);
    [lia|].
  exists (i, d). split; assumption.
Qed.

Lemma found_nth_f64 (m : nat) (M : fmatrix) (found : list (nat * float)) :
  Forall2 (fun j id => first_argmin M j (fst id) (snd id)) (seq 0 m) found ->
  length found = m /\
  forall j, (j < m)%nat ->
    exists i d, nth_error found j = Some (i, d) /\ first_argmin M j i d.
Proof.
  intros HF. split.
  - apply Forall2_length in HF. rewrite length_seq in HF. congruence.
  - intros j Hj.
    destruct (Forall2_nth_error HF j (a:=j)) as ([i d] & Hnth & Hspec).
    { rewrite nth_error_seq. destruct (Nat.ltb_spec j m); [reflexivity|lia]. }
    exists i, d. auto.
Qed.

Lemma match_index_in_range_f64 (m : nat) (M : fmatrix)
    (found : list (nat * float)) :
  Forall2 (fun j id => first_argmin M j (fst id) (snd id)) (seq 0 m) found ->
  forall i, In i (map fst found) -> (i < length M)%nat.
Proof.
  intros HF i Hi. destruct (@found_nth_f64 m M found HF) as [Hlen Hnth].
  apply in_map_iff in Hi as ([i0 d0] & <- & Hin).
  apply In_nth_error in Hin as (j & Hj).
  assert (Hjm : (j < m)%nat).
  { rewrite <- Hlen. apply nth_error_Some. congruence. }
  destruct (Hnth j Hjm) as (i & d & Hid & ((x & He & _) & _)).
  rewrite Hj in Hid. injection Hid as -> ->. cbn [fst].
  unfold entry in He.
  destruct (nth_error M i) eqn:HMi; [|discriminate].
  apply nth_error_Some. congruence.
Qed.

(** C2, as stated, fails when every customer has 0 in a feature: the norm
    of that column is 0, the scaled customer cells are [0/0], every distance
    is [NaN], no entry of a column is equal to its minimum, and [i[0][0]]
    raises.  No non-customer receives a match. *)
Lemma matching_nan_column_raises :
  let M := distance_matrix 2 zero_column_members zero_column_non_members in
  zero_column_members <> [] /\
  length M = length zero_column_members /\
  Forall (fun r => length r = length zero_column_non_members) M /\
  Forall (Forall (fun d => PrimFloat.is_nan d = true)) M /\
  matching M (length zero_column_non_members) = Err IndexError.
Proof.
  cbv zeta. split; [discriminate|].
  split; [vm_compute; reflexivity|].
  split; [vm_compute; repeat constructor|].
  split; [vm_compute; repeat constructor|].
  vm_compute. reflexivity.
Qed.

(** C2: when the distance matrix has a customer row and no [NaN], the loop
    fills [matched_euclidean] with the minimum of each column and
    [match_index] with the first row holding that minimum, one per
    non-customer; picking the customers' rows at these positions gives one
    customer per non-customer. *)
Theorem matching_first_argmin_without_nan (m : nat) (M : fmatrix) :
  M <> [] -> Forall (fun r => length r = m) M -> no_nan M ->
  exists match_index matched_euclidean,
    matching M m = Ok (match_index, matched_euclidean) /\
    length match_index = m /\ length matched_euclidean = m /\
    (forall j, (j < m)%nat ->
       exists i d, nth_error match_index j = Some i /\
                   nth_error matched_euclidean j = Some d /\
                   first_argmin M j i d) /\
    (forall members_df : frame row, length members_df = length M ->
       exists picked, iloc members_df match_index = Ok picked /\
                      length picked = m /\
                      Forall2 (fun i r => nth_error members_df i = Some r)
                              match_index picked).
Proof.
  intros Hne HM Hnan.
  destruct (@match_columns_found_f64 m M Hne HM Hnan) as (found & Hfound & HF).
  destruct (@found_nth_f64 m M found HF) as [Hlen Hnth].
  unfold matching. rewrite Hfound. cbn [bind].
  exists (map fst found), (map snd found). rewrite !length_map.
  split; [reflexivity|]. split; [exact Hlen|]. split; [exact Hlen|]. split.
  - intros j Hj. destruct (Hnth j Hj) as (i & d & Hid & Hspec).
    exists i, d. rewrite !nth_error_map, Hid. auto.
  - intros members_df Hn.
    destruct (@iloc_in_range _ members_df (map fst found))
      as (picked & Hp & Hlp & HF2).
    { intros i Hi. rewrite Hn.
      exact (@match_index_in_range_f64 m M found HF i Hi). }
    exists picked. rewrite length_map in Hlp.
    split; [exact Hp|]. split; [congruence | exact HF2].
Qed.

Lemma matching_without_nan_scenario :
  let M := distance_matrix 2 scenario_members scenario_non_members in
  exists match_index matched_euclidean,
    matching M 2 = Ok (match_index, matched_euclidean) /\
    length match_index = 2%nat /\ length matched_euclidean = 2%nat /\
    (forall j, (j < 2)%nat ->
       exists i d, nth_error match_index j = Some i /\
                   nth_error matched_euclidean j = Some d /\
                   first_argmin M j i d) /\
    (forall members_df : frame row, length members_df = length M ->
       exists picked, iloc members_df match_index = Ok picked /\
                      length picked = 2%nat /\
                      Forall2 (fun i r => nth_error members_df i = Some r)
                              match_index picked).
Proof.
  apply (@matching_first_argmin_without_nan 2
           (distance_matrix 2 scenario_members scenario_non_members)).
  - vm_compute. discriminate.
  - vm_compute. repeat constructor.
  - unfold no_nan. vm_compute. repeat constructor.
Defined.

(** *** Row alignment *)

Lemma UnitID_reset_index_f64 (df : frame row) :
  map (fun r => UnitID (snd r)) (reset_index df)
  = map (fun r => UnitID (snd r)) df.
Proof.
  rewrite <- (map_map snd UnitID (reset_index df)), map_snd_reset_index.
  apply map_map.
Qed.

Lemma UnitID_div_features_f64 (nrm : fvector) (df : frame row) :
  map (fun r => UnitID (snd r)) (div_features nrm df)
  = map (fun r => UnitID (snd r)) df.
Proof. unfold div_features. rewrite map_map. reflexivity. Qed.

Lemma length_div_features_f64 (nrm : fvector) (df : frame row) :
  length (div_features nrm df) = length df.
Proof. apply length_map. Qed.

Lemma nth_error_div_features_f64 (nrm : fvector) (df : frame row)
    (i l : nat) (r : row) :
  nth_error df i = Some (l, r) ->
  nth_error (div_features nrm df) i
  = Some (l, mkRow (UnitID r) (zipWith PrimFloat.div (features r) nrm)).
Proof.
  intros Hi. unfold div_features. rewrite nth_error_map, Hi. reflexivity.
Qed.

Lemma attach_spec_f64 (members_df non_members_df : frame row)
    (match_index : list nat) (matched_euclidean : list float)
    (picked : frame row) :
  length matched_euclidean = length non_members_df ->
  iloc members_df match_index = Ok picked ->
  exists attached,
    attach members_df non_members_df match_index matched_euclidean
    = Ok attached /\
    length attached = length non_members_df /\
    forall j r d c,
      nth_error non_members_df j = Some (j, r) ->
      nth_error matched_euclidean j = Some d ->
      nth_error picked j = Some c ->
      nth_error attached j
      = Some (j, mkMatched r d (Some (UnitID (snd c)))).
Proof.
  intros Hlen Hp. unfold attach, assign_list.
  rewrite Hlen, Nat.eqb_refl, Hp. cbn [bind].
  eexists. split; [reflexivity|]. split.
  - unfold assign_series. rewrite length_map, length_zipWith, Hlen.
    apply Nat.min_id.
  - intros j r d [l c] Hr Hd Hc. unfold assign_series.
    rewrite nth_error_map.
    rewrite (nth_error_zipWith (fun r v => (fst r, (snd r, v))) _ _ _ Hr Hd).
    cbn [option_map fst snd]. f_equal. f_equal. f_equal.
    apply (@loc_reset_index _ _ j l).
    rewrite nth_error_map, Hc. reflexivity.
Qed.

(** The frame with the two attached columns, row by row. *)
Lemma approach3_run_f64 (p : nat) (members_df0 non_members_df0 : frame row) :
  let nrm := norm_axis0 p (feature_array (reset_index members_df0)) in
  let ms := div_features nrm (reset_index members_df0) in
  let ns := div_features nrm (reset_index non_members_df0) in
  let M := distance_matrix p members_df0 non_members_df0 in
  members_df0 <> [] -> no_nan M ->
  exists match_index matched_euclidean attached,
    matching M (length ns) = Ok (match_index, matched_euclidean) /\
    attach ms ns match_index matched_euclidean = Ok attached /\
    (forall top, approach3 p top members_df0 non_members_df0
                 = Ok (potential_members top attached)) /\
    length attached = length non_members_df0 /\
    forall j l r, nth_error non_members_df0 j = Some (l, r) ->
      exists i d li c,
        first_argmin M j i d /\
        nth_error members_df0 i = Some (li, c) /\
        nth_error ns j
        = Some (j, mkRow (UnitID r) (zipWith PrimFloat.div (features r) nrm)) /\
        nth_error attached j
        = Some (j, mkMatched (mkRow (UnitID r)
                                    (zipWith PrimFloat.div (features r) nrm))
                             d (Some (UnitID c))).
Proof.
  intros nrm ms ns M Hne Hnan.
  assert (HMdef : M = euclidean (feature_array ms) (feature_array ns))
    by reflexivity.
  assert (Hms : length ms = length members_df0).
  { unfold ms. rewrite length_div_features_f64. apply length_reset_index. }
  assert (Hns : length ns = length non_members_df0).
  { unfold ns. rewrite length_div_features_f64. apply length_reset_index. }
  destruct (euclidean_shape_f64 (feature_array ms) (feature_array ns))
    as [HlenM HrowsM].
  rewrite <- HMdef in HlenM, HrowsM.
  unfold feature_array in HlenM, HrowsM. rewrite length_map in HlenM, HrowsM.
  assert (HM : M <> []).
  { intros E. rewrite E in HlenM. cbn [length] in HlenM. rewrite Hms in HlenM.
    destruct members_df0; [congruence | discriminate]. }
  destruct (@match_columns_found_f64 (length ns) M HM HrowsM Hnan)
    as (found & Hfound & HF).
  destruct (@found_nth_f64 (length ns) M found HF) as [Hlen Hnth].
  destruct (@iloc_in_range _ ms (map fst found)) as (picked & Hp & Hlp & HF2).
  { intros i Hi. rewrite <- HlenM.
    exact (@match_index_in_range_f64 (length ns) M found HF i Hi). }
  assert (Hlme : length (map snd found) = length ns)
    by (rewrite length_map; exact Hlen).
  destruct (@attach_spec_f64 ms ns (map fst found) (map snd found) picked
              Hlme Hp) as (attached & Hatt & Hla & Hrow).
  assert (Hmatch : matching M (length ns)
                   = Ok (map fst found, map snd found)).
  { unfold matching. rewrite Hfound. reflexivity. }
  exists (map fst found), (map snd found), attached.
  split; [exact Hmatch|]. split; [exact Hatt|].
  split; [|split; [congruence|]].
  - intros top. unfold approach3, scale. fold nrm. fold ms. fold ns.
    rewrite <- HMdef.
    rewrite length_reset_index, <- Hns.
    rewrite Hmatch. cbn [bind fst snd]. rewrite Hatt.
    reflexivity.
  - intros j l r Hj.
    assert (Hjm : (j < length ns)%nat).
    { rewrite Hns. apply nth_error_Some. congruence. }
    destruct (Hnth j Hjm) as (i & d & Hid & Hfirst).
    assert (Hi : nth_error (map fst found) j = Some i)
      by (rewrite nth_error_map, Hid; reflexivity).
    assert (Hd : nth_error (map snd found) j = Some d)
      by (rewrite nth_error_map, Hid; reflexivity).
    destruct (Forall2_nth_error HF2 j Hi) as (c' & Hc' & Hpick).
    assert (Hnsj : nth_error ns j
                   = Some (j, mkRow (UnitID r)
                                    (zipWith PrimFloat.div (features r) nrm))).
    { unfold ns. apply nth_error_div_features_f64.
      apply (nth_error_reset_index _ _ Hj). }
    destruct (nth_error members_df0 i) as [[li c]|] eqn:Hc.
    2:{ apply nth_error_None in Hc. rewrite <- Hms in Hc.
        apply nth_error_None in Hc. congruence. }
    assert (Hmsi : nth_error ms i
                   = Some (i, mkRow (UnitID c)
                                    (zipWith PrimFloat.div (features c) nrm))).
    { unfold ms. apply nth_error_div_features_f64.
      apply (nth_error_reset_index _ _ Hc). }
    rewrite Hmsi in Hpick. injection Hpick as <-.
    exists i, d, li, c. split; [exact Hfirst|]. split; [exact Hc|].
    split; [exact Hnsj|].
    apply (Hrow j _ d _ Hnsj Hd Hc').
Qed.

(** C10, as stated, fails when every customer has 0 in a feature: scaling
    leaves the two frames in their order, but every distance is [NaN], the
    loop raises in its first round and no column is attached to the
    non-customer frame. *)
Lemma approach3_zero_customer_column_raises :
  zero_column_members <> [] /\
  (forall top, approach3 2 top zero_column_members zero_column_non_members
               = Err IndexError) /\
  ~ exists top out,
      approach3 2 top zero_column_members zero_column_non_members = Ok out.
Proof.
  assert (H : forall top,
            approach3 2 top zero_column_members zero_column_non_members
            = Err IndexError).
  { intros top. vm_compute. reflexivity. }
  split; [discriminate|]. split; [exact H|].
  intros (top & out & Hout). rewrite H in Hout. discriminate.
Qed.

(** C10: on two frames with [p] feature columns, scaling leaves the
    [UnitID] column and the row order of both frames as they were; and
    when there is a customer and no distance is [NaN], row [j] of the
    frame with the two attached columns is the [j]-th non-customer: it
    carries that row's [UnitID] and scaled features, the minimum of column
    [j] of the distance matrix, and the [UnitID] of the customer whose row
    holds that minimum. *)
Theorem approach3_rows_aligned_without_nan
    (p : nat) (members_df0 non_members_df0 : frame row) :
  Forall (fun r => length (features (snd r)) = p) members_df0 ->
  Forall (fun r => length (features (snd r)) = p) non_members_df0 ->
  let scaled := scale p (reset_index members_df0)
                        (reset_index non_members_df0) in
  let M := distance_matrix p members_df0 non_members_df0 in
  map (fun r => UnitID (snd r)) (fst scaled)
  = map (fun r => UnitID (snd r)) members_df0 /\
  map (fun r => UnitID (snd r)) (snd scaled)
  = map (fun r => UnitID (snd r)) non_members_df0 /\
  (members_df0 <> [] -> no_nan M ->
   exists match_index matched_euclidean attached,
     matching M (length (snd scaled)) = Ok (match_index, matched_euclidean) /\
     attach (fst scaled) (snd scaled) match_index matched_euclidean
     = Ok attached /\
     (forall top, approach3 p top members_df0 non_members_df0
                  = Ok (potential_members top attached)) /\
     length attached = length non_members_df0 /\
     forall j l r, nth_error non_members_df0 j = Some (l, r) ->
       exists a i d c,
         nth_error attached j = Some (j, a) /\
         UnitID (base a) = UnitID r /\
         nth_error (feature_array (snd scaled)) j = Some (features (base a)) /\
         distance_with_closest_members a = d /\
         first_argmin M j i d /\
         nth_error members_df0 i = Some c /\
         unitid_of_most_similar_member a = Some (UnitID (snd c))).
Proof.
  intros _ _ scaled M. unfold scale in scaled. cbv zeta in scaled.
  subst scaled. cbn [fst snd].
  split; [rewrite UnitID_div_features_f64; apply UnitID_reset_index_f64|].
  split; [rewrite UnitID_div_features_f64; apply UnitID_reset_index_f64|].
  intros Hne Hnan.
  destruct (@approach3_run_f64 p members_df0 non_members_df0 Hne Hnan)
    as (mi & me & attached & Hmatch & Hatt & Hrun & Hlen & Hrows).
  exists mi, me, attached.
  split; [exact Hmatch|]. split; [exact Hatt|]. split; [exact Hrun|].
  split; [exact Hlen|].
  intros j l r Hj.
  destruct (Hrows j l r Hj) as (i & d & li & c & Hfirst & Hc & Hnsj & Ha).
  eexists. exists i, d, (li, c).
  split; [exact Ha|]. cbn [base UnitID features distance_with_closest_members
                           unitid_of_most_similar_member snd].
  split; [reflexivity|].
  split; [exact (map_nth_error (fun r0 => features (snd r0)) j _ Hnsj)|].
  split; [reflexivity|]. split; [exact Hfirst|].
  split; [exact Hc | reflexivity].
Qed.

Lemma approach3_rows_aligned_without_nan_scenario :
  let scaled := scale 2 (reset_index scenario_members)
                        (reset_index scenario_non_members) in
  let M := distance_matrix 2 scenario_members scenario_non_members in
  map (fun r => UnitID (snd r)) (fst scaled)
  = map (fun r => UnitID (snd r)) scenario_members /\
  map (fun r => UnitID (snd r)) (snd scaled)
  = map (fun r => UnitID (snd r)) scenario_non_members /\
  exists match_index matched_euclidean attached,
    matching M (length (snd scaled)) = Ok (match_index, matched_euclidean) /\
    attach (fst scaled) (snd scaled) match_index matched_euclidean
    = Ok attached /\
    (forall top, approach3 2 top scenario_members scenario_non_members
                 = Ok (potential_members top attached)) /\
    length attached = length scenario_non_members /\
    forall j l r, nth_error scenario_non_members j = Some (l, r) ->
      exists a i d c,
        nth_error attached j = Some (j, a) /\
        UnitID (base a) = UnitID r /\
        nth_error (feature_array (snd scaled)) j = Some (features (base a)) /\
        distance_with_closest_members a = d /\
        first_argmin M j i d /\
        nth_error scenario_members i = Some c /\
        unitid_of_most_similar_member a = Some (UnitID (snd c)).
Proof.
  destruct (@approach3_rows_aligned_without_nan 2 scenario_members
              scenario_non_members) as (Hm & Hn & Hrows);
    [repeat constructor | repeat constructor |].
  split; [exact Hm|]. split; [exact Hn|].
  apply Hrows.
  - discriminate.
  - unfold no_nan. vm_compute. repeat constructor.
Defined.

(** *** The shortcut and the direct summation *)


(** On the specification's scenario, with the sums added from left to
    right, the two computations agree within [2^-40] in every entry. *)
Example shortcut_within_tolerance_on_scenario :
  let X := feature_array scenario_members in
  let Y := feature_array scenario_non_members in
  forallb (fun rows =>
             forallb (fun d => PrimFloat.abs (fst d - snd d) <=? 0x1p-40)
                     (combine (fst rows) (snd rows)))
          (combine (euclidean X Y) (brute_force X Y)) = true.
Proof. vm_compute. reflexivity. Qed.

End Approach3F64Facts.

(** * Further properties of the notebook's cells *)

(** ** Frames *)

Section FrameFacts.
Variable A : Type.

Lemma loc_combine_seq_any (l : list A) (k j : nat) :
  loc (combine (seq k (length l)) l) j
  = if Nat.ltb j k then None else nth_error l (j - k).
Proof.
  revert k. induction l as [|a l IH]; intros k; simpl.
  - destruct (Nat.ltb j k); [reflexivity|]. destruct (j - k); reflexivity.
  - rewrite IH.
    destruct (Nat.eqb_spec k j) as [->|Hne].
    + rewrite Nat.ltb_irrefl, Nat.sub_diag. reflexivity.
    + destruct (Nat.ltb_spec j k) as [Hlt|Hge].
      * destruct (Nat.ltb_spec j (S k)); [reflexivity | lia].
      * destruct (Nat.ltb_spec j (S k)); [lia|].
        replace (j - k) with (S (j - S k)) by lia. reflexivity.
Qed.

Lemma map_fst_combine_seq (l : list A) (k : nat) :
  map fst (combine (seq k (length l)) l) = seq k (length l).
Proof.
  revert k. induction l as [|a l IH]; intros k; simpl; [reflexivity|].
  f_equal. apply IH.
Qed.

(** After [reset_index(drop=True)] the labels are the positions 0, 1, ...,
    the rows are the same rows in the same order, looking a row up by its
    label is looking it up by its position, and resetting again changes
    nothing. *)
Theorem reset_index_labels_are_positions (df : frame A) :
  map fst (reset_index df) = seq 0 (length df) /\
  map snd (reset_index df) = map snd df /\
  (forall j, loc (reset_index df) j = option_map snd (nth_error df j)) /\
  reset_index (reset_index df) = reset_index df.
Proof.
  split; [|split; [|split]].
  - unfold reset_index. rewrite <- (length_map snd df).
    apply map_fst_combine_seq.
  - apply map_snd_reset_index.
  - intros j. unfold reset_index. rewrite <- (length_map snd df).
    rewrite loc_combine_seq_any. simpl. rewrite Nat.sub_0_r.
    apply nth_error_map.
  - unfold reset_index at 1.
    rewrite length_reset_index, map_snd_reset_index. reflexivity.
Qed.

End FrameFacts.

(** ** Ordered lists *)

Section SortedFacts.
Variable A : Type.
Variable le : A -> A -> Prop.

Lemma StronglySorted_firstn (n : nat) (l : list A) :
  StronglySorted le l -> StronglySorted le (firstn n l).
Proof.
  intros Hs. revert n.
  induction Hs as [|a l Hs IH Ha]; intros [|n]; simpl; try constructor.
  - apply IH.
  - rewrite Forall_forall in *. intros b Hb. apply Ha.
    rewrite <- (firstn_skipn n l). apply in_or_app. auto.
Qed.

Lemma StronglySorted_firstn_skipn (n : nat) (l : list A) (a b : A) :
  StronglySorted le l -> In a (firstn n l) -> In b (skipn n l) -> le a b.
Proof.
  intros Hs. revert n.
  induction Hs as [|c l Hs IH Hc]; intros [|n]; simpl; try tauto.
  intros [<-|Ha] Hb.
  - rewrite Forall_forall in Hc. apply Hc.
    rewrite <- (firstn_skipn n l). apply in_or_app. auto.
  - exact (IH n Ha Hb).
Qed.

End SortedFacts.

Section SortByOrder.
Variable A : Type.
Variable leb : A -> A -> bool.
Hypothesis leb_total : forall a b, leb a b = true \/ leb b a = true.
Hypothesis leb_trans :
  forall a b c, leb a b = true -> leb b c = true -> leb a c = true.

Lemma insert_by_sorted (a : A) (l : list A) :
  StronglySorted (fun x y => leb x y = true) l ->
  StronglySorted (fun x y => leb x y = true) (insert_by leb a l).
Proof.
  induction 1 as [|b l Hs IH Hb]; simpl.
  - constructor; constructor.
  - destruct (leb a b) eqn:Hab.
    + constructor; [constructor; assumption|].
      constructor; [assumption|].
      eapply Forall_impl; [|exact Hb].
      intros c Hbc. exact (leb_trans Hab Hbc).
    + constructor; [exact IH|].
      apply (Permutation_Forall (Permutation_sym (insert_by_perm leb a l))).
      constructor; [|assumption].
      destruct (leb_total a b); congruence.
Qed.

Lemma sort_by_sorted (l : list A) :
  StronglySorted (fun x y => leb x y = true) (sort_by leb l).
Proof.
  induction l as [|a l IH]; simpl; [constructor|].
  apply insert_by_sorted, IH.
Qed.

End SortByOrder.

(** ** Approach 3: preparation, edge cases, geometry *)

Module Approach3More.
Import Np Approach3 Approach3Prep Approach3Facts.
Local Open Scope R_scope.

(** *** [dropna] *)

Lemma all_present_Some (v : list (option R)) (xs : vector) :
  all_present v = Some xs <-> v = map Some xs.
Proof.
  revert xs. induction v as [|[x|] v IH]; intros xs; simpl.
  - split; [intros H; injection H as <-; reflexivity|].
    destruct xs; [reflexivity | discriminate].
  - destruct (all_present v) as [ys|] eqn:E.
    + split.
      * intros H. injection H as <-. simpl. f_equal. apply IH. reflexivity.
      * destruct xs as [|x' xs]; [discriminate|]. simpl. intros H.
        injection H as <- Hv. apply IH in Hv. congruence.
    + split; [discriminate|].
      destruct xs as [|x' xs]; [discriminate|]. simpl. intros H.
      injection H as <- Hv. apply IH in Hv. discriminate.
  - split; [discriminate|]. destruct xs; discriminate.
Qed.

(** The rows [dropna] keeps are, in order, the rows without a missing
    cell, each with its label, its [UnitID] and its cells; and the rows
    with a missing cell account for the rest of the frame. *)
Theorem dropna_keeps_complete_rows (df : frame raw_row) :
  Forall2 (fun raw r =>
             fst r = fst raw /\
             UnitID (snd r) = raw_UnitID (snd raw) /\
             raw_features (snd raw) = map Some (features (snd r)))
          (filter (fun r => negb (has_missing r)) df) (dropna df) /\
  (length (dropna df) + length (filter has_missing df) = length df)%nat.
Proof.
  unfold dropna, has_missing.
  induction df as [|[l raw] df [IH1 IH2]]; simpl; [split; [constructor|reflexivity]|].
  destruct (all_present (raw_features raw)) as [v|] eqn:E; simpl.
  - split; [|lia]. constructor; [|exact IH1].
    simpl. apply all_present_Some in E. auto.
  - split; [exact IH1 | lia].
Qed.

(** *** Frames without rows *)

(** Without non-customer rows Approach 3 returns an empty list, whatever
    the customers are; without customer rows and with a non-customer row
    the first round of the matching loop raises [ValueError]. *)
Theorem approach3_without_rows
    (p top : nat) (members_df : frame row) (r : nat * row)
    (non_members_df : frame row) :
  approach3 p top members_df [] = Ok [] /\
  approach3 p top [] (r :: non_members_df) = Err ValueError.
Proof.
  split.
  - unfold approach3, scale. cbn [reset_index length map combine seq
                                  div_features].
    unfold matching. cbn [seq mapM bind fst snd map].
    unfold attach, assign_list. cbn [length Nat.eqb zipWith combine map bind
                                     iloc mapM reset_index seq assign_series].
    unfold potential_members, head, sort_values. simpl. destruct top; reflexivity.
  - unfold approach3, scale. cbn [reset_index length map combine seq
                                  div_features feature_array].
    reflexivity.
Qed.

(** *** The distance matrix *)

Lemma dot_comm (x y : vector) : dot x y = dot y x.
Proof.
  unfold dot, zipWith. revert y.
  induction x as [|a x IH]; intros [|b y]; simpl; try reflexivity.
  rewrite IH. ring.
Qed.

Lemma dot_self (x : vector) : dot x x = sum (map (fun a => a * a) x).
Proof.
  unfold dot, zipWith. induction x as [|a x IH]; simpl; [reflexivity|].
  rewrite IH. reflexivity.
Qed.

Lemma entry_euclidean (X Y : matrix) (i j : nat) :
  entry (euclidean X Y) i j
  = match nth_error X i, nth_error Y j with
    | Some x, Some y =>
        Some (dot [norm x ^ 2] [1] - 2 * dot x y + dot [1] [norm y ^ 2])
    | _, _ => None
    end.
Proof.
  rewrite euclidean_unfold. unfold entry. rewrite nth_error_map.
  destruct (nth_error X i) as [x|]; simpl; [|reflexivity].
  rewrite nth_error_map. destruct (nth_error Y j); reflexivity.
Qed.

(** In exact arithmetic, exchanging the two arrays transposes the distance
    matrix, and the distance matrix of an array with itself has a zero
    diagonal. *)
Theorem euclidean_transpose_and_diagonal (X Y : matrix) (i j : nat) :
  entry (euclidean X Y) i j = entry (euclidean Y X) j i /\
  entry (euclidean X X) i i = option_map (fun _ => 0) (nth_error X i).
Proof.
  rewrite !entry_euclidean. split.
  - destruct (nth_error X i) as [x|], (nth_error Y j) as [y|];
      try reflexivity.
    f_equal. rewrite (dot_comm y x). unfold dot, zipWith; simpl. ring.
  - destruct (nth_error X i) as [x|]; [|reflexivity].
    cbn [option_map]. f_equal.
    rewrite dot_self, <- norm_pow2. unfold dot, zipWith, sum.
    cbn [combine map fst snd fold_right]. ring.
Qed.

(** *** Scaled columns *)

Lemma nth_zipWith_div (f nrm : vector) (k : nat) (d : R) :
  nth_error nrm k = Some d -> nth k (zipWith Rdiv f nrm) 0 = nth k f 0 / d.
Proof.
  intros Hd. destruct (nth_error f k) as [x|] eqn:Hx.
  - rewrite (nth_error_nth _ _ 0 (nth_error_zipWith Rdiv _ _ _ Hx Hd)).
    rewrite (nth_error_nth _ _ 0 Hx). reflexivity.
  - apply nth_error_None in Hx.
    rewrite (nth_overflow f 0 Hx), nth_overflow.
    + unfold Rdiv. ring.
    + rewrite length_zipWith. lia.
Qed.

Lemma sum_squares_div (A : Type) (f : A -> R) (d : R) (l : list A) :
  d <> 0 ->
  sum (map (fun a => f a / d * (f a / d)) l)
  = sum (map (fun a => f a * f a) l) / (d * d).
Proof.
  intros Hd. induction l as [|a l IH]; cbn [map sum fold_right].
  - unfold Rdiv. ring.
  - fold (sum (map (fun a => f a / d * (f a / d)) l)).
    fold (sum (map (fun a => f a * f a) l)).
    rewrite IH. field. exact Hd.
Qed.

(** After the scaling cell every feature column of the customers whose
    norm was not zero has norm 1. *)
Theorem scaled_customer_column_has_norm_one
    (p : nat) (members_df non_members_df : frame row) (k : nat) :
  (k < p)%nat -> column_norm members_df k <> 0 ->
  column_norm (fst (scale p members_df non_members_df)) k = 1.
Proof.
  intros Hk Hd. unfold scale. cbn [fst].
  set (nrm := norm_axis0 p (feature_array members_df)).
  assert (Hnrm : nth_error nrm k = Some (column_norm members_df k))
    by (apply norm_axis0_column_norm; exact Hk).
  unfold column_norm at 1, div_features. rewrite map_map.
  cbv zeta. cbn [snd features].
  rewrite (map_ext _ (fun r => nth k (features (snd r)) 0
                               / column_norm members_df k
                               * (nth k (features (snd r)) 0
                                  / column_norm members_df k)))
    by (intros r; rewrite (@nth_zipWith_div _ nrm k _ Hnrm); reflexivity).
  rewrite (@sum_squares_div _ (fun r => nth k (features (snd r)) 0) _
             members_df Hd).
  assert (Hsq : column_norm members_df k * column_norm members_df k
                = sum (map (fun r => nth k (features (snd r)) 0
                                     * nth k (features (snd r)) 0)
                           members_df)).
  { unfold column_norm. cbv zeta. apply sqrt_sqrt.
    clear. induction members_df as [|r l IH]; simpl; [lra|].
    pose proof (Rle_0_sqr (nth k (features (snd r)) 0)) as H.
    unfold Rsqr in H. lra. }
  rewrite <- Hsq.
  replace (column_norm members_df k * column_norm members_df k
           / (column_norm members_df k * column_norm members_df k))
    with 1 by (field; exact Hd).
  apply sqrt_1.
Qed.

Lemma column_norm_scenario : column_norm scenario_members 0 = 1.
Proof.
  unfold column_norm, scenario_members, sum.
  cbn [map nth features snd fold_right].
  replace (1 * 1 + (0 * 0 + 0)) with 1 by lra. apply sqrt_1.
Qed.

Lemma scaled_customer_column_scenario :
  column_norm (fst (scale 2 scenario_members scenario_non_members)) 0 = 1.
Proof.
  apply (@scaled_customer_column_has_norm_one 2 scenario_members
           scenario_non_members 0).
  - lia.
  - rewrite column_norm_scenario. lra.
Defined.

(** *** Nearest customers *)

Lemma sq_diff_sum_self (x : vector) : sq_diff_sum x x = 0.
Proof. apply sq_diff_sum_zero; reflexivity. Qed.

(** In exact arithmetic, on arrays with the same [p] feature columns and at
    least one customer, the loop gives every non-customer row a customer
    row that no other customer row beats: the recorded distance is the sum
    of squared differences to it, at most the one to any customer row, and
    0 exactly when the non-customer row is itself among the customer
    rows. *)
Theorem matching_nearest_customer (p : nat) (X Y : matrix) :
  X <> [] ->
  Forall (fun x => length x = p) X ->
  Forall (fun y => length y = p) Y ->
  exists match_index matched_euclidean,
    matching (euclidean X Y) (length Y) = Ok (match_index, matched_euclidean)
    /\
    forall j y, nth_error Y j = Some y ->
      exists i x,
        nth_error match_index j = Some i /\
        nth_error X i = Some x /\
        nth_error matched_euclidean j = Some (sq_diff_sum x y) /\
        (forall x', In x' X -> sq_diff_sum x y <= sq_diff_sum x' y) /\
        (sq_diff_sum x y = 0 <-> In y X).
Proof.
  intros Hne HX HY.
  destruct (euclidean_shape X Y) as [HlenM HrowsM].
  assert (HM : euclidean X Y <> []).
  { intros E. rewrite E in HlenM. destruct X; [congruence | discriminate]. }
  destruct (@match_columns_found (length Y) _ HM HrowsM)
    as (found & Hfound & HF).
  destruct (@found_nth (length Y) _ found HF) as [Hlen Hnth].
  exists (map fst found), (map snd found). split.
  { unfold matching. rewrite Hfound. reflexivity. }
  intros j y Hy.
  assert (Hj : (j < length Y)%nat) by (apply nth_error_Some; congruence).
  destruct (Hnth j Hj) as (i & d & Hid & He & Hmin).
  rewrite (euclidean_eq_brute_force HX HY) in He, Hmin.
  apply entry_brute_force_inv in He as (x & y' & Hx & Hy' & ->).
  assert (y' = y) by congruence. subst y'.
  exists i, x. rewrite !nth_error_map, Hid. cbn [option_map fst snd].
  split; [reflexivity|]. split; [exact Hx|]. split; [reflexivity|].
  assert (Hle : forall x', In x' X -> sq_diff_sum x y <= sq_diff_sum x' y).
  { intros x' Hx'. apply In_nth_error in Hx' as (i' & Hi').
    apply (Hmin i'). apply entry_brute_force; assumption. }
  split; [exact Hle|]. split.
  - intros H0. apply sq_diff_sum_zero in H0.
    + subst y. eapply nth_error_In; eassumption.
    + rewrite Forall_forall in HX, HY.
      rewrite (HX x (nth_error_In _ _ Hx)), (HY y (nth_error_In _ _ Hy)).
      reflexivity.
  - intros Hin. pose proof (Hle y Hin) as H. rewrite sq_diff_sum_self in H.
    pose proof (sq_diff_sum_nonneg x y). lra.
Qed.

Lemma matching_nearest_customer_scenario :
  exists match_index matched_euclidean,
    matching (euclidean scenario_X scenario_Y) (length scenario_Y)
    = Ok (match_index, matched_euclidean) /\
    forall j y, nth_error scenario_Y j = Some y ->
      exists i x,
        nth_error match_index j = Some i /\
        nth_error scenario_X i = Some x /\
        nth_error matched_euclidean j = Some (sq_diff_sum x y) /\
        (forall x', In x' scenario_X ->
                    sq_diff_sum x y <= sq_diff_sum x' y) /\
        (sq_diff_sum x y = 0 <-> In y scenario_X).
Proof.
  apply (@matching_nearest_customer 2 scenario_X scenario_Y).
  - discriminate.
  - repeat constructor.
  - repeat constructor.
Defined.

(** *** Attaching the columns *)

(** Attaching the two columns succeeds exactly when there is one distance
    per row and every matched position is a row of the customer frame: a
    wrong number of distances raises [ValueError], a position beyond the
    customer frame raises [IndexError]. *)
Theorem attach_outcomes (members_df non_members_df : frame row)
    (match_index : list nat) (matched_euclidean : list R) :
  (length matched_euclidean <> length non_members_df ->
   attach members_df non_members_df match_index matched_euclidean
   = Err ValueError) /\
  (length matched_euclidean = length non_members_df ->
   (exists i, In i match_index /\ (length members_df <= i)%nat) ->
   attach members_df non_members_df match_index matched_euclidean
   = Err IndexError) /\
  (length matched_euclidean = length non_members_df ->
   (forall i, In i match_index -> (i < length members_df)%nat) ->
   exists attached,
     attach members_df non_members_df match_index matched_euclidean
     = Ok attached /\
     length attached = length non_members_df).
Proof.
  unfold attach, assign_list. split; [|split].
  - intros Hne. destruct (Nat.eqb_spec (length matched_euclidean)
                                         (length non_members_df));
      [contradiction | reflexivity].
  - intros -> (i & Hi & Hout). rewrite Nat.eqb_refl. cbn [bind].
    unfold iloc. rewrite (@Approach1Facts.mapM_Err _ _ _ IndexError);
      [reflexivity | |].
    + intros a _. destruct (nth_error members_df a) as [r|];
        [left; exists r; reflexivity | right; reflexivity].
    + exists i. split; [exact Hi|].
      apply nth_error_None in Hout. rewrite Hout. reflexivity.
  - intros Hlen Hin.
    destruct (@iloc_in_range _ members_df match_index Hin)
      as (picked & Hp & _ & _).
    destruct (@attach_spec members_df non_members_df match_index
                matched_euclidean picked Hlen Hp) as (attached & Ha & Hl & _).
    exists attached. unfold attach, assign_list in Ha. auto.
Qed.

(** *** The rows shown *)


End Approach3More.

(** ** Approach 3 on [float64]: [NaN] distances, end to end *)

Module Approach3F64More.
Import Floats Np64 Approach3F64 FloatOrder Approach3F64Facts.
Local Open Scope float_scope.

(** *** A [NaN] in the distance matrix *)

Lemma fold_minimum_nan (v : fvector) (x : float) :
  PrimFloat.is_nan x = true \/
  (exists y, In y v /\ PrimFloat.is_nan y = true) ->
  PrimFloat.is_nan (fold_left minimum v x) = true.
Proof.
  revert x. induction v as [|y v IH]; intros x H; cbn [fold_left].
  - destruct H as [Hx|(y & [] & _)]. exact Hx.
  - apply IH. destruct (PrimFloat.is_nan x) eqn:Hx.
    + left. unfold minimum. rewrite Hx. exact Hx.
    + destruct H as [H|(y0 & [<-|Hin] & Hy0)]; [discriminate| |].
      * left. unfold minimum. rewrite Hx, (@leb_nan_r x y Hy0). exact Hy0.
      * right. exists y0. auto.
Qed.

Lemma argwhere_from_nan (k : nat) (v : fvector) (c : float) :
  PrimFloat.is_nan c = true -> argwhere_from k v c = [].
Proof.
  intros Hc. revert k. induction v as [|y v IH]; intros k; [reflexivity|].
  cbn [argwhere_from]. rewrite (@eqb_nan_r y c Hc). apply IH.
Qed.

Lemma match_column_cases (m : nat) (M : fmatrix) (j : nat) :
  M <> [] -> Forall (fun r => length r = m) M -> (j < m)%nat ->
  (exists id, match_column M j = Ok id) \/ match_column M j = Err IndexError.
Proof.
  intros Hne HM Hj. unfold match_column.
  destruct (@column_spec_f64 m M j HM Hj) as (vec & -> & Hlen & _).
  cbn [bind].
  destruct vec as [|x vec]; [destruct M; [congruence | discriminate]|].
  cbn [np_min bind].
  destruct (argwhere (x :: vec) (fold_left minimum vec x)); [right | left];
    eauto.
Qed.

Lemma match_column_nan (m : nat) (M : fmatrix) (i j : nat) (x : float) :
  Forall (fun r => length r = m) M -> (j < m)%nat ->
  entry M i j = Some x -> PrimFloat.is_nan x = true ->
  match_column M j = Err IndexError.
Proof.
  intros HM Hj Hx Hnan. unfold match_column.
  destruct (@column_spec_f64 m M j HM Hj) as (vec & -> & Hlen & Hnth).
  cbn [bind]. rewrite <- Hnth in Hx.
  destruct vec as [|y vec]; [destruct i; discriminate|].
  cbn [np_min bind]. unfold argwhere.
  rewrite argwhere_from_nan; [reflexivity|].
  apply fold_minimum_nan.
  destruct i as [|i]; cbn [nth_error] in Hx.
  - left. congruence.
  - right. exists x. split; [eapply nth_error_In; eassumption | exact Hnan].
Qed.

Lemma nan_entry (m : nat) (M : fmatrix) :
  Forall (fun r => length r = m) M -> ~ no_nan M ->
  exists i j x, (j < m)%nat /\ entry M i j = Some x /\
                PrimFloat.is_nan x = true.
Proof.
  intros HM Hnot.
  assert (Hdec : forall x, {PrimFloat.is_nan x = false}
                           + {~ PrimFloat.is_nan x = false}).
  { intros x. destruct (PrimFloat.is_nan x); [right | left]; congruence. }
  destruct (Forall_Exists_dec _ (fun r => Forall_dec _ Hdec r) M)
    as [Hall|Hex]; [contradiction|].
  apply Exists_exists in Hex as (r & Hr & Hnr).
  destruct (Forall_Exists_dec _ Hdec r) as [Hall|Hex]; [contradiction|].
  apply Exists_exists in Hex as (x & Hx & Hnx).
  apply In_nth_error in Hr as (i & Hi). apply In_nth_error in Hx as (j & Hj).
  exists i, j, x. rewrite Forall_forall in HM. split; [|split].
  - rewrite <- (HM r (nth_error_In _ _ Hi)). apply nth_error_Some. congruence.
  - unfold entry. rewrite Hi. exact Hj.
  - destruct (PrimFloat.is_nan x); congruence.
Qed.

(** On a distance matrix with a customer row, the loop completes exactly
    when no distance is [NaN]: a [NaN] in a column makes [np.min] of the
    column [NaN], no entry is equal to it and [i[0][0]] raises
    [IndexError]; the loop raises nothing else. *)
Theorem matching_outcome (m : nat) (M : fmatrix) :
  M <> [] -> Forall (fun r => length r = m) M ->
  ((exists found, matching M m = Ok found) <-> no_nan M) /\
  (~ no_nan M -> matching M m = Err IndexError) /\
  (forall e, matching M m = Err e -> e = IndexError).
Proof.
  intros Hne HM.
  assert (Hraise : ~ no_nan M -> matching M m = Err IndexError).
  { intros Hnot.
    destruct (@nan_entry m M HM Hnot) as (i & j & x & Hj & Hx & Hnan).
    unfold matching.
    rewrite (@Approach1Facts.mapM_Err _ _ (match_column M) IndexError);
      [reflexivity| |].
    - intros j' Hj'. apply in_seq in Hj'.
      apply (@match_column_cases m M j' Hne HM). lia.
    - exists j. split; [apply in_seq; lia|].
      exact (@match_column_nan m M i j x HM Hj Hx Hnan). }
  assert (Hok : no_nan M -> exists found, matching M m = Ok found).
  { intros Hnan.
    destruct (@match_columns_found_f64 m M Hne HM Hnan) as (found & Hf & _).
    unfold matching. rewrite Hf. cbn [bind]. eauto. }
  assert (Hdec : no_nan M \/ ~ no_nan M).
  { assert (Hd : forall x, {PrimFloat.is_nan x = false}
                           + {~ PrimFloat.is_nan x = false}).
    { intros x. destruct (PrimFloat.is_nan x); [right | left]; congruence. }
    destruct (Forall_dec _ (fun r => Forall_dec _ Hd r) M); [left | right];
      assumption. }
  split; [split|split].
  - intros (found & Hfound). destruct Hdec as [Hnan|Hnot]; [exact Hnan|].
    rewrite (Hraise Hnot) in Hfound. discriminate.
  - exact Hok.
  - exact Hraise.
  - intros e He. destruct Hdec as [Hnan|Hnot].
    + destruct (Hok Hnan) as (found & Hfound). congruence.
    + rewrite (Hraise Hnot) in He. congruence.
Qed.

Lemma matching_outcome_zero_column :
  let M := distance_matrix 2 zero_column_members zero_column_non_members in
  ((exists found, matching M 1 = Ok found) <-> no_nan M) /\
  (~ no_nan M -> matching M 1 = Err IndexError) /\
  (forall e, matching M 1 = Err e -> e = IndexError).
Proof.
  apply (@matching_outcome 1
           (distance_matrix 2 zero_column_members zero_column_non_members)).
  - vm_compute. discriminate.
  - vm_compute. repeat constructor.
Defined.

(** *** From the frames to the list of potential members *)

Lemma dropna_In_f64 (df : frame row) (r : nat * row) :
  In r (dropna df) <->
  In r df /\ existsb PrimFloat.is_nan (features (snd r)) = false.
Proof. unfold dropna. rewrite filter_In, negb_true_iff. reflexivity. Qed.

Lemma potential_members_rows (n : nat) (df : frame matched_row) :
  length (potential_members n df) = Nat.min n (length df) /\
  forall r, In r (potential_members n df) -> In r df.
Proof.
  unfold potential_members, head. split.
  - rewrite length_firstn, (Permutation_length (sort_by_perm distance_leb df)).
    reflexivity.
  - intros r Hr. apply (sort_by_In distance_leb).
    rewrite <- (firstn_skipn n (sort_by distance_leb df)).
    apply in_or_app. left. exact Hr.
Qed.

(** From the two frames as they are before [dropna], with [p] feature
    cells per row, a customer row without missing cell and no [NaN] among
    the distances of the rows [dropna] keeps, Approach 3 returns the [top] closest non-customers
    among those without a missing cell: each returned row has a distance
    that is a number, the [UnitID] of a non-customer row without missing
    cell, and as its match the [UnitID] of a customer row without missing
    cell. *)
Theorem approach3_from_subset_rows
    (p top : nat) (members_df non_members_df : frame row) :
  Forall (fun r => length (features (snd r)) = p) members_df ->
  Forall (fun r => length (features (snd r)) = p) non_members_df ->
  (exists c, In c members_df /\
             existsb PrimFloat.is_nan (features (snd c)) = false) ->
  no_nan (distance_matrix p (dropna members_df) (dropna non_members_df)) ->
  exists out,
    approach3_from_subset p top members_df non_members_df = Ok out /\
    length out
    = Nat.min top
        (length (filter (fun r => negb (existsb PrimFloat.is_nan
                                                (features (snd r))))
                        non_members_df)) /\
    forall r, In r out ->
      PrimFloat.is_nan (distance_with_closest_members (snd r)) = false /\
      (exists c, In c members_df /\
                 existsb PrimFloat.is_nan (features (snd c)) = false /\
                 unitid_of_most_similar_member (snd r)
                 = Some (UnitID (snd c))) /\
      (exists nr, In nr non_members_df /\
                  existsb PrimFloat.is_nan (features (snd nr)) = false /\
                  UnitID (base (snd r)) = UnitID (snd nr)).
Proof.
  intros _ _ (c0 & Hc0 & Hcomplete) Hnan.
  assert (Hne : dropna members_df <> []).
  { intros E. assert (Hin : In c0 (dropna members_df))
      by (apply dropna_In_f64; auto).
    rewrite E in Hin. destruct Hin. }
  destruct (@approach3_run_f64 p (dropna members_df) (dropna non_members_df)
              Hne Hnan)
    as (mi & me & attached & _ & _ & Hrun & Hlen & Hrows).
  exists (potential_members top attached).
  split; [apply Hrun|].
  destruct (potential_members_rows top attached) as [Hl Hin].
  split; [rewrite Hl, Hlen; reflexivity|].
  intros r Hr. apply Hin in Hr.
  apply In_nth_error in Hr as (j & Hj).
  assert (Hjn : (j < length (dropna non_members_df))%nat).
  { rewrite <- Hlen. apply nth_error_Some. congruence. }
  destruct (nth_error (dropna non_members_df) j) as [[l nr]|] eqn:Hnr.
  2:{ apply nth_error_None in Hnr. lia. }
  destruct (Hrows j l nr Hnr)
    as (i & d & li & c & (_ & (i0 & Hd) & _) & Hc & _ & Ha).
  rewrite Hj in Ha. injection Ha as ->.
  cbn [snd distance_with_closest_members unitid_of_most_similar_member base
       UnitID].
  split; [exact (@no_nan_entry _ i0 j d Hnan Hd)|]. split.
  - apply nth_error_In, dropna_In_f64 in Hc as [Hc Hcc].
    exists (li, c). auto.
  - apply nth_error_In, dropna_In_f64 in Hnr as [Hnr Hnc].
    exists (l, nr). auto.
Qed.

(** Two customers and three non-customers with two features, one of the
    non-customers with a missing cell. *)
Lemma approach3_from_subset_rows_sample :
  let members_df :=
    [(4%nat, mkRow 1001 [1; 0]); (8%nat, mkRow 1002 [0; 1])] in
  let non_members_df :=
    [(1%nat, mkRow 2001 [0.9; 0.1]); (3%nat, mkRow 2002 [5; nan]);
     (6%nat, mkRow 2003 [0.1; 0.9])] in
  exists out,
    approach3_from_subset 2 100 members_df non_members_df = Ok out /\
    length out
    = Nat.min 100
        (length (filter (fun r => negb (existsb PrimFloat.is_nan
                                                (features (snd r))))
                        non_members_df)) /\
    forall r, In r out ->
      PrimFloat.is_nan (distance_with_closest_members (snd r)) = false /\
      (exists c, In c members_df /\
                 existsb PrimFloat.is_nan (features (snd c)) = false /\
                 unitid_of_most_similar_member (snd r)
                 = Some (UnitID (snd c))) /\
      (exists nr, In nr non_members_df /\
                  existsb PrimFloat.is_nan (features (snd nr)) = false /\
                  UnitID (base (snd r)) = UnitID (snd nr)).
Proof.
  apply (@approach3_from_subset_rows 2 100).
  - repeat constructor.
  - repeat constructor.
  - exists (4%nat, mkRow 1001 [1; 0]).
    split; [left; reflexivity | vm_compute; reflexivity].
  - unfold no_nan. vm_compute. repeat constructor.
Defined.

End Approach3F64More.

(** ** Approach 2: grouping, outcome, ranking *)

Module Approach2More.
Import Approach2 Approach2Rank Approach2Facts.
Local Open Scope Z_scope.

(** *** The merge *)

(** The merged frame has a row for a [UnitID], a state and a status exactly
    when the left frame has the [UnitID] with the state and the right frame
    has it with the status: an institution without status is left out. *)
Theorem merge_inner_join (subset_df : list (Z * string))
    (ids_status : list (Z * status)) (r : institution) :
  In r (merge subset_df ids_status) <->
  In (UnitID r, state r) subset_df /\
  In (UnitID r, membership_status r) ids_status.
Proof.
  unfold merge. rewrite in_flat_map. split.
  - intros ([u s] & Hl & Hr). apply in_map_iff in Hr as ([u' c] & <- & Hf).
    apply filter_In in Hf as [Hin Heq]. cbn [fst snd] in *.
    apply Z.eqb_eq in Heq. subst u'. cbn [UnitID state membership_status].
    auto.
  - intros [Hl Hr]. exists (UnitID r, state r). split; [exact Hl|].
    apply in_map_iff. exists (UnitID r, membership_status r).
    split; [destruct r; reflexivity|].
    apply filter_In. split; [exact Hr | apply Z.eqb_refl].
Qed.

Lemma filter_unique_id (ids_status : list (Z * status)) (u : Z) :
  NoDup (map fst ids_status) -> In u (map fst ids_status) ->
  exists c, filter (fun r => Z.eqb (fst r) u) ids_status = [(u, c)].
Proof.
  induction ids_status as [|[u' c'] l IH]; intros Hnd Hin; [destruct Hin|].
  cbn [map fst] in Hnd. inversion Hnd as [|? ? Hnotin Hnd']; subst.
  cbn [filter fst]. destruct (Z.eqb_spec u' u) as [->|Hne].
  - exists c'. f_equal.
    clear IH Hin Hnd Hnd'. induction l as [|[u2 c2] l IH]; [reflexivity|].
    cbn [filter fst]. destruct (Z.eqb_spec u2 u) as [->|_].
    + exfalso. apply Hnotin. left. reflexivity.
    + apply IH. intros H. apply Hnotin. right. exact H.
  - apply IH; [exact Hnd'|]. destruct Hin as [Heq|Hin]; [|exact Hin].
    cbn [fst] in Heq. congruence.
Qed.

(** When no [UnitID] occurs twice in the left frame or in the right frame
    and the right frame gives every [UnitID] of the left frame a status,
    the merged frame has the rows of the left frame, one for one and in
    their order, each with the status of its [UnitID]. *)
Theorem merge_keeps_rows (subset_df : list (Z * string))
    (ids_status : list (Z * status)) :
  NoDup (map fst subset_df) ->
  NoDup (map fst ids_status) ->
  (forall l, In l subset_df -> In (fst l) (map fst ids_status)) ->
  map (fun r => (UnitID r, state r)) (merge subset_df ids_status) = subset_df
  /\ forall r, In r (merge subset_df ids_status) ->
               In (UnitID r, membership_status r) ids_status.
Proof.
  intros _ Hnd Hall. split.
  - unfold merge. induction subset_df as [|[u s] l IH]; [reflexivity|].
    cbn [flat_map fst snd].
    destruct (@filter_unique_id ids_status u Hnd) as (c & ->).
    { apply (Hall (u, s)). left. reflexivity. }
    cbn [map app UnitID state fst snd]. f_equal.
    apply IH. intros l0 Hl0. apply Hall. right. exact Hl0.
  - intros r Hr. unfold merge in Hr.
    apply in_flat_map in Hr as (l & _ & Hr).
    apply in_map_iff in Hr as ([u c] & <- & Hf).
    apply filter_In in Hf as [Hin Heq]. apply Z.eqb_eq in Heq.
    cbn [fst snd UnitID membership_status] in *. subst u. exact Hin.
Qed.

Lemma merge_keeps_rows_sample :
  let subset_df := [(1, "NY"%string); (2, "CA"%string); (3, "NY"%string)] in
  let ids_status := [(3, non_member); (1, member); (2, non_member)] in
  map (fun r => (UnitID r, state r)) (merge subset_df ids_status) = subset_df
  /\ forall r, In r (merge subset_df ids_status) ->
               In (UnitID r, membership_status r) ids_status.
Proof.
  apply (@merge_keeps_rows
           [(1, "NY"%string); (2, "CA"%string); (3, "NY"%string)]
           [(3, non_member); (1, member); (2, non_member)]).
  - repeat constructor; simpl; intuition discriminate.
  - repeat constructor; simpl; intuition discriminate.
  - intros l [<-|[<-|[<-|[]]]]; simpl; auto.
Defined.

(** *** The grouped frame *)

Lemma sum_over_keys_cons (r : institution) (df : list institution)
    (keys : list group_key) :
  NoDup keys ->
  fold_right Z.add 0 (map (fun k => count_in (r :: df) (fst k) (snd k)) keys)
  = fold_right Z.add 0 (map (fun k => count_in df (fst k) (snd k)) keys)
    + if in_dec key_dec (key_of r) keys then 1 else 0.
Proof.
  induction 1 as [|k l Hk Hl IH]; cbn [map fold_right].
  - destruct (in_dec key_dec (key_of r) []) as [[]|_]. reflexivity.
  - rewrite IH, count_in_cons, <- surjective_pairing.
    destruct (key_eqb (key_of r) k) eqn:E.
    + apply key_eqb_eq in E. subst k.
      destruct (in_dec key_dec (key_of r) l); [contradiction|].
      destruct (in_dec key_dec (key_of r) (key_of r :: l)) as [_|Hn];
        [lia | exfalso; apply Hn; left; reflexivity].
    + assert (Hne : k <> key_of r).
      { intros ->. rewrite key_eqb_refl in E. discriminate. }
      destruct (in_dec key_dec (key_of r) (k :: l)) as [[Hi|Hi]|Hi],
               (in_dec key_dec (key_of r) l) as [Hj|Hj];
        try lia; try contradiction.
      exfalso. apply Hi. right. exact Hj.
Qed.

Lemma sum_over_keys (df : list institution) (keys : list group_key) :
  NoDup keys -> (forall r, In r df -> In (key_of r) keys) ->
  fold_right Z.add 0 (map (fun k => count_in df (fst k) (snd k)) keys)
  = Z.of_nat (length df).
Proof.
  intros Hnd. induction df as [|r df IH]; intros Hin.
  - clear. induction keys as [|k keys IH]; cbn [map fold_right];
      [reflexivity|]. rewrite IH. reflexivity.
  - rewrite (sum_over_keys_cons r df Hnd), IH
      by (intros; apply Hin; right; assumption).
    destruct (in_dec key_dec (key_of r) keys) as [_|Hn].
    + cbn [length]. lia.
    + exfalso. apply Hn, Hin. left. reflexivity.
Qed.

(** The grouped frame has one row for every pair of state and status that
    occurs in the input and for no other pair; the row holds the number of
    input rows with the pair, which is at least 1; and the numbers add up
    to the number of input rows. *)
Theorem groupby_count_groups (df : list institution) :
  NoDup (map (fun g => (g_state g, g_status g)) (groupby_count df)) /\
  (forall s c,
     (exists g, In g (groupby_count df) /\ g_state g = s /\ g_status g = c)
     <-> (exists r, In r df /\ state r = s /\ membership_status r = c)) /\
  Forall (fun g => g_UnitID g = count_in df (g_state g) (g_status g) /\
                   1 <= g_UnitID g) (groupby_count df) /\
  fold_right Z.add 0 (map g_UnitID (groupby_count df))
  = Z.of_nat (length df).
Proof.
  unfold groupby_count.
  set (keys := sort_by key_leb (nodup key_dec
                 (map (fun r => (state r, membership_status r)) df))).
  assert (Hnd : NoDup keys) by apply sort_by_NoDup, NoDup_nodup.
  assert (Hin : forall k, In k keys <-> exists r, In r df /\ key_of r = k).
  { intros k. unfold keys. rewrite sort_by_In, nodup_In, in_map_iff.
    split; intros (r & H1 & H2); exists r; auto. }
  split; [|split; [|split]].
  - rewrite map_map. cbn [g_state g_status].
    rewrite (map_ext _ (fun k => k)) by (intros []; reflexivity).
    rewrite map_id. exact Hnd.
  - intros s c. split.
    + intros (g & Hg & <- & <-). apply in_map_iff in Hg as ([s c] & <- & Hk).
      apply Hin in Hk as (r & Hr & Hkey). unfold key_of in Hkey.
      injection Hkey as <- <-. exists r. auto.
    + intros (r & Hr & <- & <-). eexists. split.
      * apply in_map_iff. exists (key_of r). split; [reflexivity|].
        apply Hin. exists r. auto.
      * auto.
  - apply Forall_forall. intros g Hg.
    apply in_map_iff in Hg as ([s c] & <- & Hk). cbn [g_UnitID g_state g_status fst snd].
    split; [reflexivity|].
    apply Hin in Hk as (r & Hr & Hkey). unfold key_of in Hkey.
    injection Hkey as <- <-. apply (count_in_present df r Hr).
  - rewrite map_map. cbn [g_UnitID].
    rewrite (map_ext _ (fun k => count_in df (fst k) (snd k)))
      by (intros [s c]; reflexivity).
    apply (sum_over_keys df Hnd). intros r Hr. apply Hin. exists r. auto.
Qed.

(** *** Outcome *)

Lemma status_occurs_dec (df : list institution) (c : status) :
  {exists r, In r df /\ membership_status r = c} +
  {~ exists r, In r df /\ membership_status r = c}.
Proof.
  destruct (existsb (fun r => status_eqb (membership_status r) c) df) eqn:E.
  - left. apply existsb_exists in E as (r & Hr & Hc).
    apply status_eqb_eq in Hc. exists r. auto.
  - right. intros (r & Hr & Hc).
    assert (Ht : existsb (fun r => status_eqb (membership_status r) c) df
                 = true).
    { apply existsb_exists. exists r. split; [exact Hr|].
      apply status_eqb_eq. exact Hc. }
    congruence.
Qed.

(** The penetration table is computed exactly when both statuses occur in
    the input; otherwise reading the column of the absent status raises
    [KeyError], and no other exception is raised. *)
Theorem market_penetration_outcome (df : list institution) :
  ((exists out, market_penetration df = Ok out) <->
   (exists r, In r df /\ membership_status r = member) /\
   (exists r, In r df /\ membership_status r = non_member)) /\
  (forall e, market_penetration df = Err e -> e = KeyError).
Proof.
  destruct (status_occurs_dec df member) as [Hm|Hm];
    destruct (status_occurs_dec df non_member) as [Hn|Hn].
  - rewrite (@market_penetration_ok df Hm Hn).
    split; [split; eauto | discriminate].
  - rewrite (@market_penetration_KeyError df _ Hn).
    split; [split; [intros (out & H); discriminate | tauto] | congruence].
  - rewrite (@market_penetration_KeyError df _ Hm).
    split; [split; [intros (out & H); discriminate | tauto] | congruence].
  - rewrite (@market_penetration_KeyError df _ Hm).
    split; [split; [intros (out & H); discriminate | tauto] | congruence].
Qed.

(** *** Totals *)

Lemma sum_plus (A : Type) (f g : A -> Z) (l : list A) :
  fold_right Z.add 0 (map (fun a => f a + g a) l)
  = fold_right Z.add 0 (map f l) + fold_right Z.add 0 (map g l).
Proof. induction l as [|a l IH]; simpl; [reflexivity | lia]. Qed.

Lemma count_statuses (df : list institution) :
  Z.of_nat (length (filter (fun r => status_eqb (membership_status r) member)
                           df))
  + Z.of_nat (length (filter (fun r => status_eqb (membership_status r)
                                                  non_member) df))
  = Z.of_nat (length df).
Proof.
  induction df as [|r df IH]; [reflexivity|]. cbn [filter].
  assert (Hm : status_eqb member member = true)
    by (apply status_eqb_eq; reflexivity).
  assert (Hn : status_eqb non_member non_member = true)
    by (apply status_eqb_eq; reflexivity).
  assert (Hmn : status_eqb member non_member = false).
  { apply not_true_is_false. intros H. apply status_eqb_eq in H.
    discriminate. }
  assert (Hnm : status_eqb non_member member = false).
  { apply not_true_is_false. intros H. apply status_eqb_eq in H.
    discriminate. }
  destruct (membership_status r); rewrite ?Hm, ?Hn, ?Hmn, ?Hnm;
    cbn [length]; lia.
Qed.

(** When both statuses occur, every institution is counted in exactly one
    cell of the table: the non-customer counts add up to the number of
    non-customers and the totals add up to the number of rows of the
    input. *)
Theorem market_penetration_counts_every_row (df : list institution) :
  (exists r, In r df /\ membership_status r = member) ->
  (exists r, In r df /\ membership_status r = non_member) ->
  exists out,
    market_penetration df = Ok out /\
    fold_right Z.add 0 (m_non_member out)
    = Z.of_nat (length (filter (fun r => status_eqb (membership_status r)
                                                    non_member) df)) /\
    fold_right Z.add 0 (m_total out) = Z.of_nat (length df).
Proof.
  intros Hm Hn. exists (expected_frame df).
  split; [apply market_penetration_ok; assumption|].
  unfold expected_frame. cbn [m_non_member m_total].
  assert (Hcover : forall r, In r df -> In (state r) (regions df)).
  { intros r Hr. apply regions_In. exists r. auto. }
  split.
  - apply sum_over_regions; [apply regions_NoDup | exact Hcover].
  - rewrite sum_plus.
    rewrite !(@sum_over_regions _ _ _ (regions_NoDup df) Hcover).
    apply count_statuses.
Qed.

Lemma market_penetration_counts_scenario :
  exists out,
    market_penetration scenario_table = Ok out /\
    fold_right Z.add 0 (m_non_member out)
    = Z.of_nat (length (filter (fun r => status_eqb (membership_status r)
                                                    non_member)
                               scenario_table)) /\
    fold_right Z.add 0 (m_total out) = Z.of_nat (length scenario_table).
Proof.
  apply (@market_penetration_counts_every_row scenario_table).
  - exists (mkInstitution 1 "NY" member). split; [left|]; reflexivity.
  - exists (mkInstitution 11 "CA" non_member).
    split; [|reflexivity]. do 10 right. left. reflexivity.
Defined.

(** *** Ranking the regions *)

Lemma score_leb_total (a b : market_row) :
  score_leb a b = true \/ score_leb b a = true.
Proof.
  unfold score_leb. destruct (r_score a) as [x|], (r_score b) as [y|]; auto.
  rewrite !Qle_bool_iff. destruct (Qlt_le_dec x y) as [H|H]; [left|right].
  - apply Qlt_le_weak. exact H.
  - exact H.
Qed.

Lemma score_leb_trans (a b c : market_row) :
  score_leb a b = true -> score_leb b c = true -> score_leb a c = true.
Proof.
  unfold score_leb.
  destruct (r_score a) as [x|], (r_score b) as [y|], (r_score c) as [z|];
    try congruence.
  rewrite !Qle_bool_iff. apply Qle_trans.
Qed.

Lemma market_rows_map (A : Type) (f : A -> string) (a b t : A -> Z)
    (q : A -> option Q) (l : list A) :
  market_rows (map f l) (map a l) (map b l) (map t l) (map q l)
  = map (fun x => mkMarketRow (f x) (a x) (b x) (t x) (q x)) l.
Proof.
  induction l as [|x l IH]; cbn [map market_rows]; [reflexivity|].
  rewrite IH. reflexivity.
Qed.

Lemma ranked_regions_ok (df : list institution) :
  (exists r, In r df /\ membership_status r = member) ->
  (exists r, In r df /\ membership_status r = non_member) ->
  ranked_regions df
  = Ok (sort_by score_leb (map (row_of df) (regions df))).
Proof.
  intros Hm Hn. unfold ranked_regions.
  rewrite (@market_penetration_ok df Hm Hn). cbn [bind].
  unfold sort_by_score, expected_frame.
  cbn [m_state m_member m_non_member m_total market_penetration_score].
  rewrite <- (map_id (regions df)) at 1.
  rewrite market_rows_map. reflexivity.
Qed.

Lemma StronglySorted_refine (A : Type) (P : A -> Prop) (R R' : A -> A -> Prop)
    (l : list A) :
  (forall a b, P a -> P b -> R a b -> R' a b) ->
  Forall P l -> StronglySorted R l -> StronglySorted R' l.
Proof.
  intros Himp HP Hs. induction Hs as [|a l Hs IH Ha]; [constructor|].
  inversion HP as [|? ? Pa Pl]; subst.
  constructor; [apply IH; exact Pl|].
  rewrite Forall_forall in *. intros b Hb.
  apply Himp; [exact Pa | apply Pl, Hb | apply Ha, Hb].
Qed.

Lemma row_of_score (df : list institution) (s : string) :
  In s (regions df) -> exists q, r_score (row_of df s) = Some q.
Proof.
  intros Hs. cbn [row_of r_score].
  destruct (@true_divide_ratio (count_in df s member)
                               (count_in df s non_member))
    as (q & Hq & _); [apply count_in_nonneg | apply count_in_nonneg | |].
  - apply count_in_region, regions_In, Hs.
  - exists q. exact Hq.
Qed.

(** When both statuses occur, the sorted table has one row per state of
    the input, holding the state's counts, their total and the ratio of
    the customer count to the total, and the rows are in ascending order
    of that ratio. *)
Theorem ranked_regions_ascending (df : list institution) :
  (exists r, In r df /\ membership_status r = member) ->
  (exists r, In r df /\ membership_status r = non_member) ->
  exists rows,
    ranked_regions df = Ok rows /\
    NoDup (map r_state rows) /\
    (forall s, In s (map r_state rows) <->
               exists r, In r df /\ state r = s) /\
    (forall row, In row rows ->
       r_member row = count_in df (r_state row) member /\
       r_non_member row = count_in df (r_state row) non_member /\
       r_total row = r_member row + r_non_member row /\
       r_score row = true_divide (r_member row) (r_total row)) /\
    StronglySorted lower_score rows.
Proof.
  intros Hm Hn.
  set (rows := sort_by score_leb (map (row_of df) (regions df))).
  assert (Hperm : Permutation rows (map (row_of df) (regions df)))
    by apply sort_by_perm.
  assert (Hstates : Permutation (map r_state rows) (regions df)).
  { rewrite (Permutation_map r_state Hperm), map_map. cbn [row_of r_state].
    rewrite map_id. reflexivity. }
  assert (Hrow : forall row, In row rows ->
            exists s, In s (regions df) /\ row = row_of df s).
  { intros row Hr. apply (Permutation_in _ Hperm), in_map_iff in Hr
      as (s & <- & Hs). exists s. auto. }
  exists rows. split; [apply ranked_regions_ok; assumption|].
  split; [|split; [|split]].
  - apply (Permutation_NoDup (Permutation_sym Hstates)), regions_NoDup.
  - intros s. rewrite <- regions_In. split; apply Permutation_in;
      [exact Hstates | exact (Permutation_sym Hstates)].
  - intros row Hr. destruct (Hrow row Hr) as (s & _ & ->).
    cbn [row_of r_member r_non_member r_total r_score r_state]. auto.
  - apply (@StronglySorted_refine _
             (fun row => exists q, r_score row = Some q)
             (fun a b => score_leb a b = true)).
    + intros a b (qa & Ha) (qb & Hb) Hab. exists qa, qb.
      unfold score_leb in Hab. rewrite Ha, Hb in Hab.
      apply Qle_bool_iff in Hab. auto.
    + apply Forall_forall. intros row Hr.
      destruct (Hrow row Hr) as (s & Hs & ->). apply row_of_score, Hs.
    + apply sort_by_sorted; [exact score_leb_total | exact score_leb_trans].
Qed.

Lemma ranked_regions_scenario :
  exists rows,
    ranked_regions scenario_table = Ok rows /\
    NoDup (map r_state rows) /\
    (forall s, In s (map r_state rows) <->
               exists r, In r scenario_table /\ state r = s) /\
    (forall row, In row rows ->
       r_member row = count_in scenario_table (r_state row) member /\
       r_non_member row = count_in scenario_table (r_state row) non_member /\
       r_total row = r_member row + r_non_member row /\
       r_score row = true_divide (r_member row) (r_total row)) /\
    StronglySorted lower_score rows.
Proof.
  apply (@ranked_regions_ascending scenario_table).
  - exists (mkInstitution 1 "NY" member). split; [left|]; reflexivity.
  - exists (mkInstitution 11 "CA" non_member).
    split; [|reflexivity]. do 10 right. left. reflexivity.
Defined.

(** When both statuses occur, the cell that shows the first [n] rows of
    the sorted table shows [n] states (all of them when there are fewer)
    and no state it leaves out has a lower ratio than a state it shows. *)
Theorem lowest_regions_have_lowest_scores (n : nat) (df : list institution) :
  (exists r, In r df /\ membership_status r = member) ->
  (exists r, In r df /\ membership_status r = non_member) ->
  exists shown not_shown,
    lowest_regions n df = Ok shown /\
    ranked_regions df = Ok (shown ++ not_shown) /\
    length shown = Nat.min n (length (nodup string_dec (map state df))) /\
    forall a b, In a shown -> In b not_shown -> lower_score a b.
Proof.
  intros Hm Hn.
  set (rows := sort_by score_leb (map (row_of df) (regions df))).
  exists (firstn n rows), (skipn n rows).
  unfold lowest_regions. rewrite (@ranked_regions_ok df Hm Hn). fold rows.
  cbn [bind]. rewrite firstn_skipn.
  split; [reflexivity|]. split; [reflexivity|]. split.
  - rewrite length_firstn. f_equal. unfold rows.
    rewrite (Permutation_length (sort_by_perm _ _)), length_map.
    apply Permutation_length, NoDup_Permutation.
    + apply regions_NoDup.
    + apply NoDup_nodup.
    + intros s. rewrite regions_In, nodup_In, in_map_iff.
      split; intros (r & H1 & H2); exists r; auto.
  - intros a b Ha Hb.
    assert (Hsome : forall row, In row rows ->
              exists q, r_score row = Some q).
    { intros row Hr. apply (Permutation_in _ (sort_by_perm _ _)),
        in_map_iff in Hr as (s & <- & Hs). apply row_of_score, Hs. }
    assert (Hab : score_leb a b = true).
    { apply (@StronglySorted_firstn_skipn _
               (fun x y => score_leb x y = true) n rows);
        [|exact Ha | exact Hb].
      apply sort_by_sorted; [exact score_leb_total | exact score_leb_trans]. }
    destruct (Hsome a) as (qa & Hqa).
    { rewrite <- (firstn_skipn n rows). apply in_or_app. auto. }
    destruct (Hsome b) as (qb & Hqb).
    { rewrite <- (firstn_skipn n rows). apply in_or_app. auto. }
    exists qa, qb. unfold score_leb in Hab. rewrite Hqa, Hqb in Hab.
    apply Qle_bool_iff in Hab. auto.
Qed.

Lemma lowest_regions_scenario :
  exists shown not_shown,
    lowest_regions 15 scenario_table = Ok shown /\
    ranked_regions scenario_table = Ok (shown ++ not_shown) /\
    length shown
    = Nat.min 15 (length (nodup string_dec (map state scenario_table))) /\
    forall a b, In a shown -> In b not_shown -> lower_score a b.
Proof.
  apply (@lowest_regions_have_lowest_scores 15 scenario_table).
  - exists (mkInstitution 1 "NY" member). split; [left|]; reflexivity.
  - exists (mkInstitution 11 "CA" non_member).
    split; [|reflexivity]. do 10 right. left. reflexivity.
Defined.

End Approach2More.

(** ** Approach 1: missing columns *)

Module Approach1More.
Import Np Approach1 Approach1Facts.
Local Open Scope string_scope.

Lemma get_loc_outcome (c : string) (cols : list string) :
  (In c cols -> exists k, get_loc c cols = Ok k) /\
  (~ In c cols -> get_loc c cols = Err KeyError).
Proof.
  split; [apply get_loc_In|].
  induction cols as [|c' cols IH]; intros Hn; [reflexivity|]. simpl.
  destruct (String.eqb_spec c c') as [->|_].
  - exfalso. apply Hn. left. reflexivity.
  - rewrite IH; [reflexivity|]. intros H. apply Hn. right. exact H.
Qed.

(** On a frame whose column labels are distinct and whose [need_score]
    cells, if it has the column, are numbers, the list of potential members
    is computed exactly when the frame has the five kept columns; a frame
    that lacks one of them raises [KeyError], and no other exception is
    raised. *)
Theorem potential_members_outcome (n : nat) (df : dataframe) :
  NoDup (columns df) ->
  (forall k, get_loc "need_score" (columns df) = Ok k ->
             Forall (fun r => exists x, nth_error (snd r) k = Some (Num x))
                    (rows df)) ->
  ((exists out, potential_members n df = Ok out) <->
   incl vars_to_keep (columns df)) /\
  (forall e, potential_members n df = Err e -> e = KeyError).
Proof.
  intros _ _.
  destruct (forallb (fun c => existsb (String.eqb c) (columns df))
                    vars_to_keep) eqn:E.
  - apply incl_forallb in E.
    destruct (potential_members_spec n df E) as (locs & _ & ->).
    split; [split; eauto | discriminate].
  - assert (Hmiss : exists c, In c vars_to_keep /\ ~ In c (columns df)).
    { apply not_true_iff_false in E.
      destruct (existsb (fun c => negb (existsb (String.eqb c) (columns df)))
                        vars_to_keep) eqn:E'.
      - apply existsb_exists in E' as (c & Hc & Hn). exists c.
        split; [exact Hc|]. intros Hin. apply negb_true_iff in Hn.
        assert (Ht : existsb (String.eqb c) (columns df) = true).
        { apply existsb_exists. exists c.
          split; [exact Hin | apply String.eqb_refl]. }
        congruence.
      - exfalso. apply E. apply forallb_forall. intros c Hc.
        destruct (existsb (String.eqb c) (columns df)) eqn:Ec;
          [reflexivity|].
        assert (Ht : existsb (fun c => negb (existsb (String.eqb c)
                                                     (columns df)))
                             vars_to_keep = true).
        { apply existsb_exists. exists c. rewrite Ec. auto. }
        congruence. }
    assert (Herr : potential_members n df = Err KeyError).
    { unfold potential_members, getitem_list.
      rewrite (@mapM_Err _ _ _ KeyError); [reflexivity | |].
      - intros c _. destruct (in_dec string_dec c (columns df)) as [Hin|Hn].
        + left. apply get_loc_In, Hin.
        + right. apply get_loc_outcome, Hn.
      - destruct Hmiss as (c & Hc & Hn). exists c.
        split; [exact Hc | apply get_loc_outcome, Hn]. }
    rewrite Herr. split; [split|congruence].
    + intros (out & H). discriminate.
    + intros Hincl. destruct Hmiss as (c & Hc & Hn).
      exfalso. apply Hn, Hincl, Hc.
Qed.

Lemma potential_members_outcome_sample :
  ((exists out, potential_members 10 sample_subset_df = Ok out) <->
   incl vars_to_keep (columns sample_subset_df)) /\
  (forall e, potential_members 10 sample_subset_df = Err e -> e = KeyError).
Proof.
  apply (@potential_members_outcome 10 sample_subset_df).
  - change (columns sample_subset_df) with scored_columns.
    assert (H : nodup string_dec scored_columns = scored_columns)
      by (vm_compute; reflexivity).
    rewrite <- H. apply NoDup_nodup.
  - intros k Hk. vm_compute in Hk. injection Hk as <-.
    repeat constructor. exists 2%R. reflexivity.
Defined.

End Approach1More.
